(** * yammy: a shallow embedding of the document composition engine

    The development follows the Go sources of [github.com/yuin/yammy]:

    - the tree model of [node.go] ([Get], [HasKey], [Delete], [Put],
      [Append], [Merge], [FindNodeByJSONPointer]);
    - the JSON Pointer parser and the variable expander of [util.go]
      ([parseJSONPointer], [expandVar], the resolver chain);
    - the patch interpreter and the variable pass of [load.go]
      ([jsonPatchAdd], [ensureJSONPointerParent], [jsonPatchRemove],
      [processPatchNode], [processVars]);
    - the error values of [errors.go].

    Go strings are byte sequences and are modelled as [list ascii]; Go
    [int]s are modelled as [Z]; a slice is its list of elements together
    with its capacity, because slice expressions are bounded by the
    capacity and not by the length.  A run-time panic is an explicit
    outcome ([Panic]).  In-place mutation of the tree is modelled by
    returning the updated tree. *)

From Stdlib Require Import List Bool Arith ZArith Lia Ascii String DecimalString.
Import ListNotations.

Set Warnings "-register-all".

(* ================================================================== *)
(** * Go strings *)
(* ================================================================== *)

Definition gostring := list ascii.

(** A string literal of the sources. *)
Definition go (s : string) : gostring := list_ascii_of_string s.

Definition byte_ltb (a b : ascii) : bool := N.ltb (N_of_ascii a) (N_of_ascii b).

(** [a == b] on strings. *)
Fixpoint str_eqb (a b : gostring) : bool :=
  match a, b with
  | [], [] => true
  | x :: a', y :: b' => Ascii.eqb x y && str_eqb a' b'
  | _, _ => false
  end.

(** [a < b] on strings: bytewise lexicographic order. *)
Fixpoint str_ltb (a b : gostring) : bool :=
  match a, b with
  | _, [] => false
  | [], _ :: _ => true
  | x :: a', y :: b' =>
      if byte_ltb x y then true
      else if byte_ltb y x then false
      else str_ltb a' b'
  end.

(** [strings.HasPrefix]. *)
Fixpoint HasPrefix (s prefix : gostring) : bool :=
  match prefix, s with
  | [], _ => true
  | p :: prefix', c :: s' => Ascii.eqb p c && HasPrefix s' prefix'
  | _ :: _, [] => false
  end.

(** [strings.Contains(s, sub)] for a one-byte [sub]. *)
Definition ContainsByte (s : gostring) (c : ascii) : bool :=
  existsb (Ascii.eqb c) s.

(** [strings.Split(s, sep)] for a one-byte separator: always at least
    one part. *)
Fixpoint Split (s : gostring) (sep : ascii) : list gostring :=
  match s with
  | [] => [[]]
  | c :: s' =>
      if Ascii.eqb c sep then [] :: Split s' sep
      else match Split s' sep with
           | [] => [[c]]
           | p :: ps => (c :: p) :: ps
           end
  end.

(** [strings.Join(parts, sep)]. *)
Fixpoint Join (parts : list gostring) (sep : gostring) : gostring :=
  match parts with
  | [] => []
  | [p] => p
  | p :: ps => p ++ sep ++ Join ps sep
  end.

(** [strings.ReplaceAll(s, old, new)] for a one-byte [old]. *)
Definition ReplaceAllByte (s : gostring) (old : ascii) (new : gostring) : gostring :=
  flat_map (fun c => if Ascii.eqb c old then new else [c]) s.

(** [strings.ReplaceAll(s, old, new)] for a two-byte [old]: leftmost,
    non-overlapping occurrences. *)
Fixpoint ReplaceAll2 (s : gostring) (o1 o2 : ascii) (new : gostring) : gostring :=
  match s with
  | c :: ((d :: s'') as s') =>
      if Ascii.eqb c o1 && Ascii.eqb d o2
      then new ++ ReplaceAll2 s'' o1 o2 new
      else c :: ReplaceAll2 s' o1 o2 new
  | _ => s
  end.

(** [fmt.Sprintf("%d", i)]. *)
Definition itoa (i : Z) : gostring :=
  go (NilZero.string_of_int (Z.to_int i)).

(** [len(s)] as a Go [int]. *)
Definition len {A : Type} (l : list A) : Z := Z.of_nat (List.length l).

(* ================================================================== *)
(** * Outcomes and errors *)
(* ================================================================== *)

(** A call either returns or panics. *)
Inductive result (A : Type) : Type :=
| Ok (a : A)
| Panic (msg : string).
Arguments Ok {A} a.
Arguments Panic {A} msg.

Definition bind {A B : Type} (r : result A) (f : A -> result B) : result B :=
  match r with
  | Ok a => f a
  | Panic msg => Panic msg
  end.

Notation "x <- r ;; k" := (bind r (fun x => k))
  (at level 61, r at next level, right associativity).
Notation "' p <- r ;; k" := (bind r (fun p => k))
  (at level 61, p pattern, r at next level, right associativity).

(** The error categories of [errors.go], each a package-level
    [wrappedError] pointer compared by identity. *)
Inductive definedError := Err | ErrIO | ErrYAML | ErrDirective | ErrVarNotFound.

Definition definedError_eqb (a b : definedError) : bool :=
  match a, b with
  | Err, Err | ErrIO, ErrIO | ErrYAML, ErrYAML
  | ErrDirective, ErrDirective | ErrVarNotFound, ErrVarNotFound => true
  | _, _ => false
  end.

(** [defineError(message, parent)]. *)
Definition defined_message (d : definedError) : gostring :=
  match d with
  | Err => go "yammy error"
  | ErrIO => go "io error"
  | ErrYAML => go "yaml error"
  | ErrDirective => go "directive error"
  | ErrVarNotFound => go "variable not found"
  end.

Definition defined_parent (d : definedError) : option definedError :=
  match d with
  | Err => None
  | _ => Some Err
  end.

(** Go [error] values.  [errAfterLastElement] and [errNotFound] are the
    two values made with [errors.New] in [node.go]; [Errorf] is the
    result of a [fmt.Errorf] whose format has no [%w] verb (a fresh value
    that wraps nothing); [New] is the result of [wrappedError.New]. *)
Inductive error : Type :=
| errAfterLastElement
| errNotFound
| Errorf (msg : gostring)
| Defined (d : definedError)
| New (parent : definedError) (message : gostring) (cause : option error).

(** [wrappedError.Is] for a defined category: itself or an ancestor. *)
Definition defined_Is (d : definedError) (target : error) : bool :=
  match target with
  | Defined t =>
      definedError_eqb d t ||
      match defined_parent d with
      | Some p => definedError_eqb p t
      | None => false
      end
  | _ => false
  end.

(** [errors.Is(err, target)] for a non-nil [err]; [target] is one of the
    package-level values. *)
Fixpoint errors_Is (err target : error) : bool :=
  match err with
  | errAfterLastElement =>
      match target with errAfterLastElement => true | _ => false end
  | errNotFound =>
      match target with errNotFound => true | _ => false end
  | Errorf _ => false
  | Defined d => defined_Is d target
  | New p _ cause =>
      defined_Is p target ||
      match cause with
      | Some c => errors_Is c target
      | None => false
      end
  end.

(** [errors.Is(err, target)] where [err] may be nil. *)
Definition errors_Is_opt (err : option error) (target : error) : bool :=
  match err with
  | Some e => errors_Is e target
  | None => false
  end.

(** [err.Error()]. *)
Fixpoint Error (e : error) : gostring :=
  match e with
  | errAfterLastElement => go "after last element"
  | errNotFound => go "can not find nodes matches path"
  | Errorf msg => msg
  | Defined d =>
      match defined_parent d with
      | Some p => defined_message p ++ go ": " ++ defined_message d
      | None => defined_message d
      end
  | New p message cause =>
      let ret := match cause with
                 | Some c => message ++ go ": " ++ Error c
                 | None => message
                 end in
      let ret := defined_message p ++ go ": " ++ ret in
      match defined_parent p with
      | Some pp => ret ++ go ": " ++ defined_message pp
      | None => ret
      end
  end.

(* ================================================================== *)
(** * The run-time environment *)
(* ================================================================== *)

(** What the engine takes from outside the repository: the capacity the
    Go runtime picks when [append] has to reallocate, whether
    [strconv.ParseFloat(s, 64)] succeeds, and what [yaml.Unmarshal]
    makes of a text: the [Value] and [Tag] of the root node of the
    document, or the message of its error. *)
Class Externals := {
  growslice : nat -> nat -> nat;
  ParseFloat_ok : gostring -> bool;
  yaml_Unmarshal : gostring -> (gostring * gostring) + gostring
}.

(* ================================================================== *)
(** * The tree model (node.go) *)
(* ================================================================== *)

(** [yaml.Kind]. *)
Inductive yamlKind := DocumentNode | SequenceNode | MappingNode | ScalarNode | AliasNode.

Definition kind_eqb (a b : yamlKind) : bool :=
  match a, b with
  | DocumentNode, DocumentNode | SequenceNode, SequenceNode
  | MappingNode, MappingNode | ScalarNode, ScalarNode
  | AliasNode, AliasNode => true
  | _, _ => false
  end.

(** [type node struct { yaml.Node; File string; Content []node }].
    Of the embedded [yaml.Node] the fields the engine reads are kept.
    [Content] is the slice's elements and [Cap] its capacity. *)
Inductive node : Type := mkNode {
  Kind : yamlKind;
  Tag : gostring;
  Value : gostring;
  Line : Z;
  File : gostring;
  Content : list node;
  Cap : nat
}.

Definition setContent (n : node) (c : list node) (cap : nat) : node :=
  mkNode (Kind n) (Tag n) (Value n) (Line n) (File n) c cap.

(** Capacity after [append] to a slice of capacity [cap] makes a slice
    of [newlen] elements: unchanged when the elements fit, otherwise
    that of a new array that is large enough. *)
Definition append_cap `{Externals} (cap newlen : nat) : nat :=
  if newlen <=? cap then cap else Nat.max newlen (growslice cap newlen).

(** [newStringNode(s, file)]: [yaml.Node.SetString] makes a [!!str]
    scalar. *)
Definition newStringNode (s file : gostring) : node :=
  mkNode ScalarNode (go "!!str") s 0 file [] 0.

(** Modelled from the spec: [newMappingNode] is not in the sources; it
    makes the empty Mapping container that auto-creation inserts,
    carrying the given file. *)
Definition newMappingNode (file : gostring) : node :=
  mkNode MappingNode [] [] 0 file [] 0.

(** Modelled from the spec: [newSequenceNode] is not in the sources; it
    makes the empty Sequence container that auto-creation inserts,
    carrying the given file. *)
Definition newSequenceNode (file : gostring) : node :=
  mkNode SequenceNode [] [] 0 file [] 0.

(** [n.Where()]. *)
Definition Where (n : node) : gostring :=
  File n ++ go "(line:" ++ itoa (Line n) ++ go ")".

(** [n.KindString()]. *)
Definition KindString (n : node) : gostring :=
  match Kind n with
  | DocumentNode => go "document"
  | SequenceNode => go "sequence"
  | MappingNode => go "mapping"
  | ScalarNode => go "scalar"
  | AliasNode => go "alias"
  end.

Definition index_out_of_range : string := "index out of range".
Definition slice_out_of_range : string := "slice bounds out of range".

(** The loop of [Get] over [n.Content]: [ForEachMap] reads
    [Content[i]] and [Content[i+1]] before it calls the callback, so a
    dangling last key panics. *)
Fixpoint get_loop (c : list node) (key : gostring) : result (option node) :=
  match c with
  | [] => Ok None
  | k :: rest =>
      match rest with
      | [] => Panic index_out_of_range
      | v :: rest' => if str_eqb (Value k) key then Ok (Some v) else get_loop rest' key
      end
  end.

(** [n.Get(key)]; [None] is the nil pointer. *)
Definition Get (n : node) (key : gostring) : result (option node) :=
  if negb (kind_eqb (Kind n) MappingNode) then Ok None
  else get_loop (Content n) key.

(** [n.HasKey(key)]. *)
Definition HasKey (n : node) (key : node) : result bool :=
  if negb (kind_eqb (Kind n) MappingNode) then Ok false
  else r <- get_loop (Content n) (Value key) ;;
       Ok (match r with Some _ => true | None => false end).

(** The loop of [Delete]: the kept pairs in order, and the value of
    the last pair removed. *)
Fixpoint delete_loop `{Externals} (c : list node) (key : gostring)
    (newContent : list node) (newCap : nat) (ret : option node)
    : result (list node * nat * option node) :=
  match c with
  | [] => Ok (newContent, newCap, ret)
  | k :: rest =>
      if str_eqb (Value k) key then
        match rest with
        | [] => Panic index_out_of_range
        | v :: rest' => delete_loop rest' key newContent newCap (Some v)
        end
      else
        match rest with
        | [] => Panic index_out_of_range
        | v :: rest' =>
            delete_loop rest' key (newContent ++ [k; v])
              (append_cap newCap (List.length newContent + 2)) ret
        end
  end.

(** [n.Delete(key)]: the updated node and the removed value. *)
Definition Delete `{Externals} (n : node) (key : gostring) : result (node * option node) :=
  if negb (kind_eqb (Kind n) MappingNode) then Ok (n, None)
  else '(c, cap, ret) <- delete_loop (Content n) key [] 0 None ;;
       Ok (setContent n c cap, ret).

(** The first loop of [Put]: the content with the value of the first
    pair whose key equals [key] replaced, and the value it had. *)
Fixpoint put_replace (c : list node) (key : gostring) (value : node)
    : result (option (list node * node)) :=
  match c with
  | [] => Ok None
  | k :: rest =>
      match rest with
      | [] => Panic index_out_of_range
      | v :: rest' =>
          if str_eqb (Value k) key then Ok (Some (k :: value :: rest', v))
          else r <- put_replace rest' key value ;;
               Ok (match r with
                   | Some (c', old) => Some (k :: v :: c', old)
                   | None => None
                   end)
      end
  end.

(** The second loop of [Put], started at index [i]: the index of the
    first key that is greater than [key]. *)
Fixpoint put_pos (c : list node) (key : gostring) (i : nat) : option nat :=
  match c with
  | [] => None
  | k :: rest =>
      if str_ltb key (Value k) then Some i
      else match rest with
           | [] => None
           | _ :: rest' => put_pos rest' key (i + 2)
           end
  end.

(** [n.Put(key, value)]: the updated node and the previous value. *)
Definition Put `{Externals} (n : node) (key value : node) : result (node * option node) :=
  if negb (kind_eqb (Kind n) MappingNode) then Ok (n, None)
  else
    r <- put_replace (Content n) (Value key) value ;;
    match r with
    | Some (c', old) => Ok (setContent n c' (Cap n), Some old)
    | None =>
        let pos :=
          if kind_eqb (Kind key) ScalarNode then
            match put_pos (Content n) (Value key) 0 with
            | Some i => i
            | None => List.length (Content n)
            end
          else List.length (Content n) in
        Ok (setContent n
              (firstn pos (Content n) ++ [key; value] ++ skipn pos (Content n))
              (append_cap (Cap n) (List.length (Content n) + 2)),
            None)
    end.

(** [n.Append(value)]. *)
Definition Append `{Externals} (n : node) (value : node) : node :=
  if negb (kind_eqb (Kind n) SequenceNode) then n
  else setContent n (Content n ++ [value])
         (append_cap (Cap n) (List.length (Content n) + 1)).

(** [n.Merge(other)]: [n] is updated in place and is the result, unless
    the kinds differ or the nodes are scalars, where the result is
    [other].  The error result of the source is always nil. *)
Fixpoint Merge `{Externals} (n other : node) {struct other} : result node :=
  if negb (kind_eqb (Kind n) (Kind other)) then Ok other
  else
    match Kind n with
    | MappingNode =>
        (fix each (n : node) (c : list node) {struct c} : result node :=
           match c with
           | [] => Ok n
           | k :: rest =>
               match rest with
               | [] => Panic index_out_of_range
               | v :: rest' =>
                   has <- HasKey n k ;;
                   n' <- (if (has : bool) then
                            cur <- Get n (Value k) ;;
                            match cur with
                            | Some cv =>
                                nv <- Merge cv v ;;
                                '(n', _) <- Put n k nv ;; Ok n'
                            | None => Panic "nil pointer dereference"
                            end
                          else
                            '(n', _) <- Put n k v ;; Ok n') ;;
                   each n' rest'
               end
           end) n (Content other)
    | SequenceNode => Ok (fold_left Append (Content other) n)
    | _ => Ok other
    end.

(* ================================================================== *)
(** * JSON Pointer (util.go) *)
(* ================================================================== *)

Record jsonPointerToken := mkToken {
  String : gostring;
  IsIndex : bool;
  Index : Z;
  Original : gostring;
  Path : gostring
}.

Definition jsonPointer := list jsonPointerToken.

(** [t.IsLastIndex()]. *)
Definition IsLastIndex (t : jsonPointerToken) : bool :=
  IsIndex t && (Index t <? 0)%Z.

(** [p.Pop()]: slicing an empty pointer panics. *)
Definition Pop (p : jsonPointer) : result (jsonPointer * jsonPointerToken) :=
  match rev p with
  | [] => Panic slice_out_of_range
  | last :: _ => Ok (removelast p, last)
  end.

(** [p.String()]. *)
Definition jsonPointer_String (p : jsonPointer) : gostring :=
  go "/" ++ Join (map Original p) (go "/").

Definition digit_val (c : ascii) : option Z :=
  let v := Z.of_N (N_of_ascii c) in
  if ((48 <=? v) && (v <=? 57))%Z then Some (v - 48)%Z else None.

Fixpoint parse_digits (s : gostring) (acc : Z) : option Z :=
  match s with
  | [] => Some acc
  | c :: s' =>
      match digit_val c with
      | Some d => parse_digits s' (acc * 10 + d)%Z
      | None => None
      end
  end.

(** [strconv.Atoi] on a 64-bit platform: an optional sign, then decimal
    digits, within the range of [int]; [None] is a non-nil error. *)
Definition Atoi (s : gostring) : option Z :=
  let '(neg, ds) :=
    match s with
    | "-"%char :: r => (true, r)
    | "+"%char :: r => (false, r)
    | _ => (false, s)
    end in
  match ds with
  | [] => None
  | _ =>
      match parse_digits ds 0 with
      | Some v =>
          let v' := if neg then (- v)%Z else v in
          if ((- 2 ^ 63 <=? v') && (v' <=? 2 ^ 63 - 1))%Z then Some v' else None
      | None => None
      end
  end.

(** The token made for [part], the [i]-th of [parts]. *)
Definition parseToken (parts : list gostring) (i : nat) (part : gostring) : jsonPointerToken :=
  let path := go "/" ++ Join (firstn (i + 1) parts) (go "/") in
  let str := ReplaceAll2 part "~" "1" (go "/") in
  let str := ReplaceAll2 str "~" "0" (go "~") in
  let '(isIndex, index) :=
    match Atoi str with
    | Some v => if (-1 <? v)%Z then (true, v) else (false, 0%Z)
    | None => (false, 0%Z)
    end in
  let '(isIndex, index) :=
    if str_eqb str (go "-") then (true, (-1)%Z) else (isIndex, index) in
  mkToken str isIndex index part path.

Fixpoint parseTokens (parts : list gostring) (i : nat) (todo : list gostring) : jsonPointer :=
  match todo with
  | [] => []
  | part :: todo' => parseToken parts i part :: parseTokens parts (i + 1) todo'
  end.

(** [parseJSONPointer(path)]. *)
Definition parseJSONPointer (path : gostring) : jsonPointer * option error :=
  if negb (HasPrefix path (go "/"))
  then ([], Some (Errorf (go "Invalid JSON Pointer: " ++ path)))
  else let parts := Split (skipn 1 path) "/" in
       (parseTokens parts 0 parts, None).

(* ================================================================== *)
(** * Path resolution (node.go) *)
(* ================================================================== *)

(** A pointer to a node of the tree: the node and the indices, from the
    root, of the [Content] elements that lead to it. *)
Definition ptr := (node * list nat)%type.

(** Index in [c], counted from [i], of the value that [Get] returns. *)
Fixpoint get_at (c : list node) (key : gostring) (i : nat) : option nat :=
  match c with
  | k :: _ :: rest' =>
      if str_eqb (Value k) key then Some (i + 1) else get_at rest' key (i + 2)
  | _ => None
  end.

Definition value_index (n : node) (key : gostring) : nat :=
  match get_at (Content n) key 0 with
  | Some i => i
  | None => 0
  end.

(** [findNodeByJSONPointer(n, pointer, index)], with [rest] the tokens
    [pointer[index:]] and [loc] the place of [n]. *)
Fixpoint findNodeByJSONPointer (n : node) (loc : list nat) (rest : jsonPointer)
    : result (option ptr * option error) :=
  match rest with
  | [] => Ok (Some (n, loc), None)
  | t :: rest' =>
      c <- (if kind_eqb (Kind n) MappingNode then Get n (String t) else Ok None) ;;
      match c with
      | Some c => findNodeByJSONPointer c (loc ++ [value_index n (String t)]) rest'
      | None =>
          if negb (IsIndex t) then Ok (None, Some errNotFound)
          else if negb (kind_eqb (Kind n) SequenceNode) then
            Ok (None, Some (Errorf (go "can not evaluate an index " ++ itoa (Index t)
                                    ++ go " on " ++ KindString n ++ go " object")))
          else if (Index t <? 0)%Z then Ok (Some (n, loc), Some errAfterLastElement)
          else if (len (Content n) <=? Index t)%Z then
            Ok (None, Some (Errorf (go "out of bounds index " ++ itoa (Index t))))
          else
            match nth_error (Content n) (Z.to_nat (Index t)) with
            | Some c => findNodeByJSONPointer c (loc ++ [Z.to_nat (Index t)]) rest'
            | None => Panic index_out_of_range
            end
      end
  end.

(** [n.FindNodeByJSONPointer(path)]. *)
Definition FindNodeByJSONPointer (n : node) (path : gostring)
    : result (option ptr * option error) :=
  let '(p, err) := parseJSONPointer path in
  match err with
  | Some e => Ok (None, Some e)
  | None =>
      if str_eqb path (go "/") then Ok (Some (n, []), None)
      else
        '(ret, err) <- findNodeByJSONPointer n [] p ;;
        match err with
        | Some e => Ok (None, Some (Errorf (path ++ go ": " ++ Error e)))
        | None => Ok (ret, None)
        end
  end.

(** The tree [root] after the node at [loc] has been assigned [new]:
    what an assignment through a pointer does to the tree. *)
Fixpoint store (root : node) (loc : list nat) (new : node) : node :=
  match loc with
  | [] => new
  | i :: loc' =>
      match nth_error (Content root) i with
      | Some c =>
          setContent root
            (firstn i (Content root) ++ [store c loc' new] ++ skipn (i + 1) (Content root))
            (Cap root)
      | None => root
      end
  end.

(* ================================================================== *)
(** * The patch interpreter (load.go) *)
(* ================================================================== *)

(** The two statements
    [target.Content = append(target.Content[:i+1], target.Content[i:]...)]
    and [target.Content[i] = newValue], for [0 <= i <= len]: the slice
    expression [target.Content[:i+1]] is within bounds only up to the
    capacity. *)
Definition insertBefore `{Externals} (target : node) (i : nat) (newValue : node) : result node :=
  if Cap target <? i + 1 then Panic slice_out_of_range
  else Ok (setContent target
             (firstn i (Content target) ++ [newValue] ++ skipn i (Content target))
             (append_cap (Cap target) (List.length (Content target) + 1))).

(** [ensureJSONPointerParent(obj, pointer)]: the updated [obj] and the
    error. *)
Fixpoint ensureJSONPointerParent `{Externals} (parent : node) (pointer : jsonPointer)
    : result (node * option error) :=
  match pointer with
  | t :: ((n :: _) as rest) =>
      if IsIndex t && kind_eqb (Kind parent) SequenceNode
         && (len (Content parent) <=? Index t)%Z
      then Panic index_out_of_range
      else if kind_eqb (Kind parent) MappingNode then
        let key := newStringNode (String t) (File parent) in
        v <- Get parent (String t) ;;
        parent <- match v with
                  | Some _ => Ok parent
                  | None =>
                      '(p, _) <- Put parent key
                                   (if IsIndex n then newSequenceNode (File parent)
                                    else newMappingNode (File parent)) ;;
                      Ok p
                  end ;;
        v <- Get parent (String t) ;;
        match v with
        | Some child =>
            '(child', err) <- ensureJSONPointerParent child rest ;;
            Ok (store parent [value_index parent (String t)] child', err)
        | None => Panic "nil pointer dereference"
        end
      else Ok (parent, Some (Errorf (go "can not evaluate an index " ++ String t
                                     ++ go " on *yammy.node object")))
  | _ => Ok (parent, None)
  end.

(** The part of [jsonPatchAdd] after [target] has been resolved. *)
Definition addAt `{Externals} (n : node) (parent : jsonPointer) (child : jsonPointerToken)
    (target : ptr) (newValue : node) : result (node * option error) :=
  let '(tn, loc) := target in
  if IsIndex child && kind_eqb (Kind tn) SequenceNode then
    let i := Index child in
    if (i <? 0)%Z then
      Ok (store n loc (setContent tn (Content tn ++ [newValue])
                         (append_cap (Cap tn) (List.length (Content tn) + 1))), None)
    else if (len (Content tn) <? i)%Z then
      Ok (n, Some (Errorf (go "can not perform an add value before index " ++ itoa i
                           ++ go "(path: " ++ jsonPointer_String parent
                           ++ go ", size: " ++ itoa (len (Content tn)) ++ go ")")))
    else
      tn' <- insertBefore tn (Z.to_nat i) newValue ;;
      Ok (store n loc tn', None)
  else if kind_eqb (Kind tn) MappingNode then
    let key := newStringNode (String child) (File n) in
    '(tn', _) <- Put tn key newValue ;;
    Ok (store n loc tn', None)
  else
    Ok (n, Some (Errorf (go "can not perform an add '" ++ Original child
                         ++ go "' key operation on (an) " ++ KindString tn
                         ++ go " node(path: " ++ jsonPointer_String parent ++ go ")"))).

(** [jsonPatchAdd(n, jp, newValue)]: the updated tree and the error. *)
Definition jsonPatchAdd `{Externals} (n : node) (jp : jsonPointer) (newValue : node)
    : result (node * option error) :=
  '(parent, child) <- Pop jp ;;
  '(target, err) <- FindNodeByJSONPointer n (jsonPointer_String parent) ;;
  if errors_Is_opt err errNotFound then
    '(n, err) <- ensureJSONPointerParent n jp ;;
    match err with
    | Some e => Ok (n, Some e)
    | None =>
        '(target, err) <- FindNodeByJSONPointer n (jsonPointer_String parent) ;;
        match err, target with
        | Some e, _ => Ok (n, Some e)
        | None, Some target => addAt n parent child target newValue
        | None, None => Panic "nil pointer dereference"
        end
    end
  else
    match err, target with
    | Some e, _ => Ok (n, Some e)
    | None, Some target => addAt n parent child target newValue
    | None, None => Panic "nil pointer dereference"
    end.

(** [jsonPatchRemove(n, jp)]: the updated tree and the error. *)
Definition jsonPatchRemove `{Externals} (n : node) (jp : jsonPointer)
    : result (node * option error) :=
  '(parent, child) <- Pop jp ;;
  '(target, err) <- FindNodeByJSONPointer n (jsonPointer_String parent) ;;
  match err, target with
  | Some e, _ => Ok (n, Some e)
  | None, None => Panic "nil pointer dereference"
  | None, Some (tn, loc) =>
      if IsIndex child && negb (IsLastIndex child) && kind_eqb (Kind tn) SequenceNode then
        let i := Index child in
        if (len (Content tn) <=? i)%Z then
          Ok (n, Some (Errorf (go "can not remove a value at index " ++ itoa i
                               ++ go "(path: " ++ jsonPointer_String parent
                               ++ go ", size: " ++ itoa (len (Content tn)) ++ go ")")))
        else
          Ok (store n loc
                (setContent tn
                   (firstn (Z.to_nat i) (Content tn) ++ skipn (Z.to_nat i + 1) (Content tn))
                   (Cap tn)), None)
      else if kind_eqb (Kind tn) MappingNode then
        '(tn', removed) <- Delete tn (String child) ;;
        match removed with
        | None =>
            Ok (store n loc tn',
                Some (Errorf (go "can not remove a value " ++ jsonPointer_String jp
                              ++ go "(value does not exist)")))
        | Some _ => Ok (store n loc tn', None)
        end
      else
        Ok (n, Some (Errorf (go "can not perform a remove operation on (an) "
                             ++ KindString tn ++ go " node(path: "
                             ++ jsonPointer_String parent ++ go ")")))
  end.

(** [processPatchNode(n, patchNode)] once the fields of the patch have
    been read: [where_] is [patchNode.Where()], [op] and [jp] its
    operation and parsed path, [newValue] its value node. *)
Definition processPatchNode `{Externals} (n : node) (where_ op : gostring)
    (jp : jsonPointer) (newValue : node) : result (node * option error) :=
  let directive (e : error) :=
    Some (New ErrDirective (where_ ++ go ": " ++ Error e) None) in
  if str_eqb op (go "add") then
    '(n, err) <- jsonPatchAdd n jp newValue ;;
    Ok (n, match err with Some e => directive e | None => None end)
  else if str_eqb op (go "remove") then
    '(n, err) <- jsonPatchRemove n jp ;;
    Ok (n, match err with Some e => directive e | None => None end)
  else if str_eqb op (go "replace") then
    '(n, _) <- jsonPatchRemove n jp ;;
    '(n, err) <- jsonPatchAdd n jp newValue ;;
    Ok (n, match err with
           | Some e => if errors_Is e errNotFound then None else directive e
           | None => None
           end)
  else
    Ok (n, Some (New ErrDirective
                   (where_ ++ go ": unsupported patch operation: " ++ op) None)).

(* ================================================================== *)
(** * The variable expander (util.go) *)
(* ================================================================== *)

(** The byte of the double quote. *)
Definition dquote : ascii := "034"%char.

(** [v[i]]; every use is guarded by a bound check in the source. *)
Definition byte_at (v : gostring) (i : nat) : ascii := nth i v "000"%char.

(** [v[lo:hi]]. *)
Definition slice (v : gostring) (lo hi : nat) : result gostring :=
  if (lo <=? hi) && (hi <=? List.length v)
  then Ok (firstn (hi - lo) (skipn lo v))
  else Panic slice_out_of_range.

Definition byte_in (lo hi c : ascii) : bool :=
  negb (byte_ltb c lo) && negb (byte_ltb hi c).

(** [isVarName(c, i)]. *)
Definition isVarName (c : ascii) (i : nat) : bool :=
  if byte_in "a" "z" c || byte_in "A" "Z" c then true
  else if negb (i =? 0) then
    byte_in "0" "9" c || Ascii.eqb c "_" || Ascii.eqb c "-"
  else false.

Record vvv := mkVar {
  start : nat;
  end_ : nat;
  name : gostring;
  def : gostring;
  tag : gostring
}.

(** [type VarResolver func(key string) (string, error)]. *)
Definition VarResolver := gostring -> result (gostring * option error).

(** [guessScalarNodeTag(s)]. *)
Definition guessScalarNodeTag `{Externals} (s : gostring) : gostring :=
  if str_eqb s (go "null") then go "null"
  else if str_eqb s (go "true") || str_eqb s (go "false") || str_eqb s (go "yes")
          || str_eqb s (go "no") || str_eqb s (go "on") || str_eqb s (go "off")
  then go "bool"
  else match Atoi s with
       | Some _ => go "int"
       | None => if ParseFloat_ok s then go "float" else go "str"
       end.

(** A byte matched by the regular expression [\s]. *)
Definition is_space (c : ascii) : bool :=
  Ascii.eqb c "009" || Ascii.eqb c "010" || Ascii.eqb c "012"
  || Ascii.eqb c "013" || Ascii.eqb c " ".

(** [shouldQuote(s)]. *)
Definition shouldQuote `{Externals} (s : gostring) : bool :=
  ContainsByte s "}" || ContainsByte s dquote
  || negb (str_eqb (guessScalarNodeTag s) (go "str")) || existsb is_space s.

(** [quote(s)]. *)
Definition quote (s : gostring) : gostring :=
  let s := ReplaceAllByte s "\" (go "\\") in
  let s := ReplaceAllByte s dquote ["\"%char; dquote] in
  [dquote] ++ s ++ [dquote].

(** The loop of [parseVarString], with [s] the bytes [v[i:]]: the
    unescaped text and the index after the closing quote ([None] is
    [-1]). *)
Fixpoint parseVarString_loop (s : gostring) (i : nat) (q : ascii) (buf : gostring)
    : gostring * option nat :=
  match s with
  | [] => (buf, None)
  | c :: s' =>
      match s' with
      | d :: s'' =>
          if Ascii.eqb c "\" then
            if Ascii.eqb d q then parseVarString_loop s'' (i + 2) q (buf ++ [q])
            else if Ascii.eqb d "\" then parseVarString_loop s'' (i + 2) q (buf ++ ["\"%char])
            else parseVarString_loop s' (i + 1) q (buf ++ [c])
          else if Ascii.eqb c q then (buf, Some (i + 1))
          else parseVarString_loop s' (i + 1) q (buf ++ [c])
      | [] =>
          if Ascii.eqb c q then (buf, Some (i + 1))
          else parseVarString_loop s' (i + 1) q (buf ++ [c])
      end
  end.

(** [parseVarString(v, i, q)]. *)
Definition parseVarString (v : gostring) (i : nat) (q : ascii) : gostring * option nat :=
  parseVarString_loop (skipn (i + 1) v) (i + 1) q [].

(** [for ; j < len(v) && isVarName(v[j], j); j++ {}], with [s] the
    bytes [v[j:]]. *)
Fixpoint scanVarName (s : gostring) (j : nat) : nat :=
  match s with
  | c :: s' => if isVarName c j then scanVarName s' (j + 1) else j
  | [] => j
  end.

(** [for ; j < len(v) && v[j] != '}'; j++ {}], with [s] the bytes
    [v[j:]]. *)
Fixpoint scanDefault (s : gostring) (j : nat) : nat :=
  match s with
  | c :: s' => if Ascii.eqb c "}" then j else scanDefault s' (j + 1)
  | [] => j
  end.

(** The variables of the scanning loop of [expandVar].  [varStarts] is
    [-1] before the first [${] in the source and is never read then. *)
Record lexer := mkLexer {
  lx_i : nat;
  lx_state : nat;
  varStarts : nat;
  varName : gostring;
  vars : list vvv
}.

(** One turn of the body of the scanning loop, without the [i++]. *)
Definition lexStep `{Externals} (v : gostring) (st : lexer) : lexer :=
  let i := lx_i st in
  let c := byte_at v i in
  match lx_state st with
  | 0 =>
      if Ascii.eqb c "$" && negb (i =? List.length v - 1) then
        let c2 := byte_at v (i + 1) in
        let i := if Ascii.eqb c2 "$" then i + 1 else i in
        if Ascii.eqb c2 "{" then mkLexer i 1 i (varName st) (vars st)
        else mkLexer i 0 (varStarts st) (varName st) (vars st)
      else st
  | 1 => mkLexer i 2 (varStarts st) (varName st) (vars st)
  | 2 =>
      let j := scanVarName (skipn i v) i in
      let varName := firstn (j - i) (skipn i v) in
      let i := j - 1 in
      if List.length varName =? 0 then mkLexer i 0 (varStarts st) varName (vars st)
      else mkLexer i 3 (varStarts st) varName (vars st)
  | 3 =>
      if Ascii.eqb c ":" then mkLexer i 4 (varStarts st) (varName st) (vars st)
      else if Ascii.eqb c "}" then
        mkLexer i 0 (varStarts st) (varName st)
          (vars st ++ [mkVar (varStarts st) (i + 1) (varName st) [] (go "str")])
      else st
  | 4 =>
      if Ascii.eqb c dquote then
        let '(value, e) := parseVarString v i c in
        match e with
        | None => mkLexer i 0 (varStarts st) (varName st) (vars st)
        | Some e =>
            if List.length v =? e then mkLexer i 0 (varStarts st) (varName st) (vars st)
            else
              mkLexer (e - 1) 0 (varStarts st) (varName st)
                (if Ascii.eqb (byte_at v e) "}"
                 then vars st ++ [mkVar (varStarts st) (e + 1) (varName st) value (go "str")]
                 else vars st)
        end
      else
        let j := scanDefault (skipn i v) i in
        if j =? List.length v then mkLexer i 0 (varStarts st) (varName st) (vars st)
        else
          let value := firstn (j - i) (skipn i v) in
          mkLexer (j - 1) 0 (varStarts st) (varName st)
            (if Ascii.eqb (byte_at v j) "}"
             then vars st ++ [mkVar (varStarts st) (j + 1) (varName st) value
                               (guessScalarNodeTag value)]
             else vars st)
  | _ => st
  end.

(** The scanning loop [for ; i < len(v); i++]. *)
Fixpoint lexLoop `{Externals} (fuel : nat) (v : gostring) (st : lexer) : lexer :=
  match fuel with
  | 0 => st
  | S fuel' =>
      if lx_i st <? List.length v then
        let st' := lexStep v st in
        lexLoop fuel' v
          (mkLexer (lx_i st' + 1) (lx_state st') (varStarts st') (varName st') (vars st'))
      else st
  end.

(** The variables found in [v].  A turn of the loop either moves [i]
    forward or leaves a state other than 0 for state 0, so that
    [2 * len(v)] turns reach the end of [v]. *)
Definition lexVars `{Externals} (v : gostring) : list vvv :=
  vars (lexLoop (2 * List.length v + 1) v (mkLexer 0 0 0 [] [])).

(** What the resolver's answer for [vv] leaves as the text to use, or
    the error [expandVar] returns. *)
Definition resolvedOf (vv : vvv) (keepsVariables : bool)
    (answer : gostring * option error) : gostring + error :=
  match answer with
  | (resolved, None) => inl resolved
  | (_, Some err) =>
      if errors_Is err (Defined ErrVarNotFound) then
        if (List.length (def vv) =? 0) && negb keepsVariables then inr err
        else inl (def vv)
      else inr err
  end.

(** The text that replaces [vv]. *)
Definition replacement `{Externals} (v : gostring) (nvars : nat) (vv : vvv)
    (keepsVariables : bool) (resolved : gostring) : gostring :=
  let isSingleVariable :=
    (nvars =? 1) && (end_ vv =? List.length v) && (start vv =? 0) in
  if negb keepsVariables then
    if (List.length resolved =? 0) && isSingleVariable then [dquote; dquote]
    else if str_eqb (tag vv) (go "str") && isSingleVariable && shouldQuote resolved
    then quote resolved
    else resolved
  else
    if List.length resolved =? 0 then go "${" ++ name vv ++ go "}"
    else if str_eqb (tag vv) (go "str") && shouldQuote resolved
    then go "${" ++ name vv ++ go ":" ++ quote resolved ++ go "}"
    else go "${" ++ name vv ++ go ":" ++ resolved ++ go "}".

(** The re-assembly loop of [expandVar] over the variables [todo]. *)
Fixpoint substitute `{Externals} (v : gostring) (resolv : VarResolver)
    (keepsVariables : bool) (nvars : nat) (todo : list vvv) (offset : nat)
    (ret : gostring) : result (gostring * option error) :=
  match todo with
  | [] =>
      tail <- slice v offset (List.length v) ;;
      Ok (ret ++ tail, None)
  | vv :: todo' =>
      seg <- slice v offset (start vv) ;;
      answer <- resolv (name vv) ;;
      match resolvedOf vv keepsVariables answer with
      | inr err => Ok ([], Some err)
      | inl resolved =>
          substitute v resolv keepsVariables nvars todo' (end_ vv)
            (ret ++ seg ++ replacement v nvars vv keepsVariables resolved)
      end
  end.

(** [expandVar(v, resolv, keepsVariables)]. *)
Definition expandVar `{Externals} (v : gostring) (resolv : VarResolver)
    (keepsVariables : bool) : result (gostring * option error) :=
  let vars := lexVars v in
  if List.length vars =? 0 then Ok (v, None)
  else substitute v resolv keepsVariables (List.length vars) vars 0 [].

(** [ErrVarNotFound.New("%s not found", nil, key)]. *)
Definition notFound (key : gostring) : error :=
  New ErrVarNotFound (key ++ go " not found") None.

(** [newCompositeVarResolver(resolvers...)]. *)
Fixpoint newCompositeVarResolver (resolvers : list VarResolver) : VarResolver :=
  fun key =>
    match resolvers with
    | [] => Ok ([], Some (notFound key))
    | r :: resolvers' =>
        '(v, err) <- r key ;;
        if errors_Is_opt err (Defined ErrVarNotFound)
        then newCompositeVarResolver resolvers' key
        else Ok (v, err)
    end.

(** [newDirectiveVarResolver(vars)]; [None] is the nil pointer. *)
Definition newDirectiveVarResolver (vars : option node) : VarResolver :=
  fun key =>
    match vars with
    | Some vars =>
        if kind_eqb (Kind vars) MappingNode then
          v <- Get vars key ;;
          match v with
          | Some v =>
              if negb (kind_eqb (Kind v) ScalarNode) then
                Ok ([], Some (New ErrDirective
                                (go "variable " ++ key ++ go " must be a scalar node") None))
              else Ok (Value v, None)
          | None => Ok ([], Some (notFound key))
          end
        else Ok ([], Some (notFound key))
    | None => Ok ([], Some (notFound key))
    end.

(** [envVarResolver(key)], with [environ] what [os.LookupEnv] reads:
    the process environment. *)
Definition envVarResolver (environ : gostring -> option gostring) : VarResolver :=
  fun key =>
    match environ key with
    | Some ev => Ok (ev, None)
    | None => Ok ([], Some (notFound key))
    end.

(** The resolver [Load] builds when no resolver is configured. *)
Definition defaultVarResolver (environ : gostring -> option gostring)
    (variables : node) : VarResolver :=
  newCompositeVarResolver
    [envVarResolver environ; newDirectiveVarResolver (Some variables)].

(* ================================================================== *)
(** * The variable pass (load.go) *)
(* ================================================================== *)

(** The scalar case of [processVars]. *)
Definition processScalar `{Externals} (n : node) (resolver : VarResolver)
    (keepsVariables : bool) : result (node * option error) :=
  if str_eqb (Tag n) (go "!!str") then
    '(newString, err) <- expandVar (Value n) resolver keepsVariables ;;
    match err with
    | Some e => Ok (n, Some e)
    | None =>
        if negb (str_eqb (Value n) newString) then
          match yaml_Unmarshal newString with
          | inr msg =>
              Ok (n, Some (New ErrYAML (Where n ++ go ": failed to parse a variable")
                             (Some (Errorf msg))))
          | inl (value, tag) =>
              Ok (mkNode ScalarNode tag value (Line n) (File n) (Content n) (Cap n), None)
          end
        else Ok (n, None)
    end
  else Ok (n, None).

(** [processVars(n, resolver, keepsVariables)]: the updated node and
    the error. *)
Fixpoint processVars `{Externals} (n : node) (resolver : VarResolver)
    (keepsVariables : bool) {struct n} : result (node * option error) :=
  match Kind n with
  | MappingNode =>
      '(c, err) <-
        (fix each (c : list node) {struct c} : result (list node * option error) :=
           match c with
           | [] => Ok ([], None)
           | k :: rest =>
               match rest with
               | [] => Panic index_out_of_range
               | v :: rest' =>
                   '(v', err) <- processVars v resolver keepsVariables ;;
                   match err with
                   | Some e => Ok (k :: v' :: rest', Some e)
                   | None => '(r, err) <- each rest' ;; Ok (k :: v' :: r, err)
                   end
               end
           end) (Content n) ;;
      Ok (setContent n c (Cap n), err)
  | SequenceNode =>
      '(c, err) <-
        (fix each (c : list node) {struct c} : result (list node * option error) :=
           match c with
           | [] => Ok ([], None)
           | v :: rest =>
               '(v', err) <- processVars v resolver keepsVariables ;;
               match err with
               | Some e => Ok (v' :: rest, Some e)
               | None => '(r, err) <- each rest ;; Ok (v' :: r, err)
               end
           end) (Content n) ;;
      Ok (setContent n c (Cap n), err)
  | ScalarNode => processScalar n resolver keepsVariables
  | _ => Ok (n, None)
  end.

(* ================================================================== *)
(** * A sample environment *)
(* ================================================================== *)

(** Decimal digits, at least one. *)
Definition all_digits (s : gostring) : bool :=
  negb (List.length s =? 0) && forallb (byte_in "0" "9") s.

(** A plain decimal number with a fraction, as [ParseFloat] accepts. *)
Definition sample_float (s : gostring) : bool :=
  match Split s "." with
  | [a; b] => all_digits a && all_digits b
  | _ => false
  end.

(** The text between double quotes, with the escapes of [quote]
    undone. *)
Definition sample_unquote (s : gostring) : gostring :=
  fst (parseVarString_loop s 1 dquote []).

(** Enough of [yaml.Unmarshal] to run the examples: a double-quoted
    text is a string, a decimal integer is an [!!int], [[] is an error,
    anything else is a plain string. *)
Definition sample_yaml (s : gostring) : (gostring * gostring) + gostring :=
  match s with
  | c :: s' =>
      if Ascii.eqb c dquote then inl (sample_unquote s', go "!!str")
      else if Ascii.eqb c "[" then
        inr (go "yaml: line 1: did not find expected node content")
      else if all_digits s then inl (s, go "!!int")
      else inl (s, go "!!str")
  | [] => inl ([], [])
  end.

(** A runtime that doubles the capacity when [append] reallocates. *)
Definition sample : Externals := {|
  growslice := fun cap _ => 2 * cap;
  ParseFloat_ok := sample_float;
  yaml_Unmarshal := sample_yaml
|}.

(** Nodes as the parser makes them, for the examples: a scalar, a
    Mapping and a Sequence of file [f.yml]. *)
Definition scalarOf (s : string) : node :=
  mkNode ScalarNode (go "!!str") (go s) 1 (go "f.yml") [] 0.

Definition mappingOf (c : list node) (cap : nat) : node :=
  mkNode MappingNode (go "!!map") [] 1 (go "f.yml") c cap.

Definition sequenceOf (c : list node) (cap : nat) : node :=
  mkNode SequenceNode (go "!!seq") [] 1 (go "f.yml") c cap.

(* ================================================================== *)
(** * Notions used by the properties *)
(* ================================================================== *)

(** The key strings of a Mapping's content, in order. *)
Fixpoint keys (c : list node) : list gostring :=
  match c with
  | k :: _ :: rest => Value k :: keys rest
  | _ => []
  end.

Definition str_mem (s : gostring) (l : list gostring) : bool :=
  existsb (str_eqb s) l.

Fixpoint distinct (l : list gostring) : bool :=
  match l with
  | [] => true
  | s :: l' => negb (str_mem s l') && distinct l'
  end.

(** The invariant of the data model, on every node of a tree: a Mapping
    has an even number of children and pairwise distinct key strings. *)
Fixpoint wfb (n : node) : bool :=
  (if kind_eqb (Kind n) MappingNode
   then Nat.even (List.length (Content n)) && distinct (keys (Content n))
   else true)
  && forallb wfb (Content n).

Definition wf (n : node) : Prop := wfb n = true.

(** The pairs of [c] whose key is not [key]: what [Delete] keeps. *)
Fixpoint remove_pairs (c : list node) (key : gostring) : list node :=
  match c with
  | k :: v :: rest =>
      if str_eqb (Value k) key then remove_pairs rest key
      else k :: v :: remove_pairs rest key
  | _ => []
  end.

(** The loop of the Mapping case of [Merge] over the content of
    [other], with the recursive call as [merge]. *)
Fixpoint merge_each `{Externals} (merge : node -> node -> result node)
    (n : node) (c : list node) {struct c} : result node :=
  match c with
  | [] => Ok n
  | k :: rest =>
      match rest with
      | [] => Panic index_out_of_range
      | v :: rest' =>
          has <- HasKey n k ;;
          n' <- (if (has : bool) then
                   cur <- Get n (Value k) ;;
                   match cur with
                   | Some cv =>
                       nv <- merge cv v ;;
                       '(n', _) <- Put n k nv ;; Ok n'
                   | None => Panic "nil pointer dereference"
                   end
                 else
                   '(n', _) <- Put n k v ;; Ok n') ;;
          merge_each merge n' rest'
      end
  end.

(** [a <= b] on strings. *)
Definition str_leb (a b : gostring) : bool := negb (str_ltb b a).

(** Ascending key strings. *)
Fixpoint ascending (l : list gostring) : bool :=
  match l with
  | a :: ((b :: _) as l') => str_leb a b && ascending l'
  | _ => true
  end.

(** An environment that defines nothing, and one that defines [KEY]. *)
Definition noEnviron : gostring -> option gostring := fun _ => None.

Definition environKEY (ev : gostring) : gostring -> option gostring :=
  fun key => if str_eqb key (go "KEY") then Some ev else None.

(** The scalars that are exactly one reference: [${NAME}],
    [${NAME:default}] and [${NAME:"default"}] with the default quoted
    by [quote]. *)
Inductive reference :=
| Bare (name : gostring)
| Unquoted (name default : gostring)
| Quoted (name default : gostring).

Definition render (r : reference) : gostring :=
  match r with
  | Bare n => go "${" ++ n ++ go "}"
  | Unquoted n d => go "${" ++ n ++ go ":" ++ d ++ go "}"
  | Quoted n d => go "${" ++ n ++ go ":" ++ quote d ++ go "}"
  end.

Definition ref_name (r : reference) : gostring :=
  match r with Bare n | Unquoted n _ | Quoted n _ => n end.

(** A name the scanner reads in full: not empty, made of letters,
    digits, [_] and [-]. *)
Definition valid_name (n : gostring) : bool :=
  negb (List.length n =? 0) && forallb (fun c => isVarName c 1) n.

(** An unquoted default the scanner reads in full: without [}] and not
    opened by a double quote. *)
Definition valid_default (d : gostring) : bool :=
  negb (ContainsByte d "}")
  && match d with c :: _ => negb (Ascii.eqb c dquote) | [] => true end.

Definition valid_reference (r : reference) : bool :=
  valid_name (ref_name r)
  && match r with Unquoted _ d => valid_default d | _ => true end.

(** The default and the inferred type the scanner records. *)
Definition ref_def (r : reference) : gostring :=
  match r with Bare _ => [] | Unquoted _ d | Quoted _ d => d end.

Definition ref_tag `{Externals} (r : reference) : gostring :=
  match r with Unquoted _ d => guessScalarNodeTag d | _ => go "str" end.

(** A text that can be embedded as an unquoted default whatever its
    inferred type: without [}], double quote and white space. *)
Definition plain (s : gostring) : bool :=
  negb (ContainsByte s "}") && negb (ContainsByte s dquote)
  && negb (existsb is_space s).

(** The variable the scanner records for a reference that is the whole
    scalar. *)
Definition ref_var `{Externals} (r : reference) : vvv :=
  mkVar 0 (List.length (render r)) (ref_name r) (ref_def r) (ref_tag r).

(** The reference that keep-expression mode writes for [r] once it has
    been resolved to [resolved]. *)
Definition kept `{Externals} (r : reference) (resolved : gostring) : reference :=
  if List.length resolved =? 0 then Bare (ref_name r)
  else if str_eqb (ref_tag r) (go "str") && shouldQuote resolved
  then Quoted (ref_name r) resolved
  else Unquoted (ref_name r) resolved.

(** A scalar as text and references: [t1 r1 ... tk rk tail]. *)
Fixpoint render_pieces (ps : list (gostring * reference)) (tail : gostring) : gostring :=
  match ps with
  | [] => tail
  | (t, r) :: ps' => t ++ render r ++ render_pieces ps' tail
  end.

(** The variables the scanner records for the references of such a
    scalar, the first text being at index [o]. *)
Fixpoint vars_of `{Externals} (ps : list (gostring * reference)) (o : nat) : list vvv :=
  match ps with
  | [] => []
  | (t, r) :: ps' =>
      let s := o + List.length t in
      let e := s + List.length (render r) in
      mkVar s e (ref_name r) (ref_def r) (ref_tag r) :: vars_of ps' e
  end.

(** Text without [$] around valid references. *)
Definition valid_pieces (ps : list (gostring * reference)) (tail : gostring) : bool :=
  forallb (fun p => negb (ContainsByte (fst p) "$") && valid_reference (snd p)) ps
  && negb (ContainsByte tail "$").

(** Whether the one reference of the scalar is the whole scalar. *)
Definition single_of (ps : list (gostring * reference)) (tail : gostring) : bool :=
  match ps with
  | [(t, _)] => (List.length t =? 0) && (List.length tail =? 0)
  | _ => false
  end.

(** The text that replaces the reference [r]; [single] tells whether it
    is the whole scalar. *)
Definition replace_ref `{Externals} (single keepsVariables : bool) (r : reference)
    (resolved : gostring) : gostring :=
  if keepsVariables then render (kept r resolved)
  else if single then
    if List.length resolved =? 0 then [dquote; dquote]
    else if str_eqb (ref_tag r) (go "str") && shouldQuote resolved then quote resolved
    else resolved
  else resolved.

(** The re-assembly of [expandVar] over text and references. *)
Fixpoint expand_pieces `{Externals} (resolv : VarResolver) (keepsVariables single : bool)
    (ps : list (gostring * reference)) (tail ret : gostring)
    : result (gostring * option error) :=
  match ps with
  | [] => Ok (ret ++ tail, None)
  | (t, r) :: ps' =>
      answer <- resolv (ref_name r) ;;
      match resolvedOf (ref_var r) keepsVariables answer with
      | inr err => Ok ([], Some err)
      | inl resolved =>
          expand_pieces resolv keepsVariables single ps' tail
            (ret ++ t ++ replace_ref single keepsVariables r resolved)
      end
  end.

(** The text keep-expression mode embeds for [r]: the value found, or
    the default of [r]. *)
Definition resolved_keep (resolv : VarResolver) (r : reference) : gostring :=
  match resolv (ref_name r) with
  | Ok (val, None) => val
  | _ => ref_def r
  end.

Definition kept_pieces `{Externals} (resolv : VarResolver)
    (ps : list (gostring * reference)) : list (gostring * reference) :=
  map (fun p => (fst p, kept (snd p) (resolved_keep resolv (snd p)))) ps.

(** The resolver answers [r] with a value or with not-found. *)
Definition answered (resolv : VarResolver) (r : reference) : Prop :=
  exists val err,
    resolv (ref_name r) = Ok (val, err)
    /\ forall e, err = Some e -> errors_Is e (Defined ErrVarNotFound) = true.

(** A value found for a reference whose default is not string-typed can
    be embedded as it is. *)
Definition embeddable `{Externals} (resolv : VarResolver) (r : reference) : Prop :=
  forall val,
    str_eqb (ref_tag r) (go "str") = false ->
    resolv (ref_name r) = Ok (val, None) -> plain val = true.

(** A text that the scanner reads back from an unquoted default, and
    that substitution then leaves unquoted. *)
Definition reads_back `{Externals} (resolved : gostring) : Prop :=
  valid_default resolved = true
  /\ str_eqb (guessScalarNodeTag resolved) (go "str") && shouldQuote resolved = false.

(** The [i++] of the scanning loop. *)
Definition nextTurn (st : lexer) : lexer :=
  mkLexer (lx_i st + 1) (lx_state st) (varStarts st) (varName st) (vars st).

(** Keep-expression mode first, then ordinary substitution of the
    rewritten text with the same resolver. *)
Definition keepThenSubstitute `{Externals} (v : gostring) (resolv : VarResolver)
    : result (gostring * option error) :=
  '(kept, err) <- expandVar v resolv true ;;
  match err with
  | Some e => Ok ([], Some e)
  | None => expandVar kept resolv false
  end.

(* ================================================================== *)
(** * Properties *)
(* ================================================================== *)

Section Strings.

Lemma str_eqb_refl (a : gostring) : str_eqb a a = true.
Proof.
  induction a as [|x a IH]; simpl; [reflexivity|].
  now rewrite Ascii.eqb_refl, IH.
Qed.

Lemma str_eqb_eq (a b : gostring) : str_eqb a b = true <-> a = b.
Proof.
  split.
  - revert b; induction a as [|x a IH]; intros [|y b]; simpl; try discriminate; auto.
    intros E. apply andb_true_iff in E as [E1 E2].
    apply Ascii.eqb_eq in E1. f_equal; auto.
  - intros ->. apply str_eqb_refl.
Qed.

Lemma str_eqb_neq (a b : gostring) : str_eqb a b = false <-> a <> b.
Proof.
  split.
  - intros E ->. rewrite str_eqb_refl in E. discriminate.
  - intros N. destruct (str_eqb a b) eqn:E; auto.
    apply str_eqb_eq in E. contradiction.
Qed.

Lemma str_eqb_sym (a b : gostring) : str_eqb a b = str_eqb b a.
Proof.
  destruct (str_eqb a b) eqn:E.
  - apply str_eqb_eq in E. subst. now rewrite str_eqb_refl.
  - symmetry. apply str_eqb_neq. apply str_eqb_neq in E. congruence.
Qed.

End Strings.

Section Resolution.

(** C9: for every tree, resolving the pointer string "/" returns the
    root node itself, without an error and without a lookup of the
    empty key. *)
Theorem FindNodeByJSONPointer_root (n : node) :
  FindNodeByJSONPointer n (go "/") = Ok (Some (n, []), None).
Proof. reflexivity. Qed.

(** Without the special case the one token of "/" is the empty key: on
    a Mapping that has no such key the walk itself fails. *)
Lemma findNodeByJSONPointer_empty_key :
  findNodeByJSONPointer (newMappingNode []) [] (fst (parseJSONPointer (go "/")))
  = Ok (None, Some errNotFound).
Proof. reflexivity. Qed.

End Resolution.

Section Resolvers.

(** A name that is set in the environment is answered by the default
    chain with its value, found. *)
Lemma defaultVarResolver_env (environ : gostring -> option gostring)
    (variables : node) (key ev : gostring) :
  environ key = Some ev ->
  defaultVarResolver environ variables key = Ok (ev, None).
Proof.
  intros E. unfold defaultVarResolver. simpl. unfold envVarResolver. now rewrite E.
Qed.

End Resolvers.

Section Pairs.

(** Induction over a list two elements at a time. *)
Lemma pairs_ind (P : list node -> Prop) :
  P [] ->
  (forall k v rest, Nat.even (List.length rest) = true -> P rest -> P (k :: v :: rest)) ->
  forall c, Nat.even (List.length c) = true -> P c.
Proof.
  intros H0 H2.
  fix IH 1. intros [|k [|v rest]] E.
  - exact H0.
  - discriminate E.
  - apply H2; [exact E | apply IH; exact E].
Qed.

End Pairs.

Ltac pair_induction c E :=
  pattern c; apply pairs_ind; [ | | exact E]; clear E c;
  [ | intros ?k ?v ?rest ?Erest ?IH].

Section Lookup.

Lemma even_app (a b : list node) :
  Nat.even (List.length a) = true ->
  Nat.even (List.length (a ++ b)) = Nat.even (List.length b).
Proof.
  intros E. pair_induction a E; auto.
Qed.

Lemma keys_app (a b : list node) :
  Nat.even (List.length a) = true -> keys (a ++ b) = keys a ++ keys b.
Proof.
  intros E. pair_induction a E; auto.
  simpl. now rewrite IH.
Qed.

Lemma get_loop_ok (c : list node) (key : gostring) :
  Nat.even (List.length c) = true -> exists r, get_loop c key = Ok r.
Proof.
  intros E. pair_induction c E; [now exists None|].
  simpl. destruct (str_eqb (Value k) key); [now exists (Some v)|assumption].
Qed.

Lemma get_loop_app (a b : list node) (key : gostring) :
  Nat.even (List.length a) = true ->
  get_loop (a ++ b) key =
  match get_loop a key with
  | Ok None => get_loop b key
  | r => r
  end.
Proof.
  intros E. pair_induction a E; auto.
  simpl. destruct (str_eqb (Value k) key); auto.
Qed.

Lemma get_loop_mem (c : list node) (key : gostring) :
  Nat.even (List.length c) = true ->
  get_loop c key = Ok None <-> str_mem key (keys c) = false.
Proof.
  intros E. pair_induction c E; [easy|].
  simpl. rewrite (str_eqb_sym key). destruct (str_eqb (Value k) key); simpl; [easy|assumption].
Qed.

Lemma get_loop_In (c : list node) (key : gostring) (v : node) :
  get_loop c key = Ok (Some v) -> In v c.
Proof.
  revert v. induction c as [c IH] using (well_founded_induction (Wf_nat.well_founded_ltof _ (@List.length node))).
  intros v. destruct c as [|k [|w rest]]; simpl; try discriminate.
  destruct (str_eqb (Value k) key).
  - intros [= ->]. auto.
  - intros G. right; right. apply IH; auto. unfold Wf_nat.ltof. simpl. lia.
Qed.

End Lookup.
Section PutFacts.
Context `{Externals}.

Lemma byte_ltb_asym (a b : ascii) : byte_ltb a b = true -> byte_ltb b a = false.
Proof.
  unfold byte_ltb. intros L. apply N.ltb_lt in L. apply N.ltb_ge. lia.
Qed.

Lemma str_ltb_asym (a b : gostring) : str_ltb a b = true -> str_ltb b a = false.
Proof.
  revert b. induction a as [|x a IH]; intros [|y b]; simpl; auto; try discriminate.
  destruct (byte_ltb x y) eqn:L1.
  - intros _. now rewrite (byte_ltb_asym _ _ L1).
  - destruct (byte_ltb y x) eqn:L2; [discriminate|]. apply IH.
Qed.

(** [put_replace] finds the first pair whose key is [key]. *)
Lemma put_replace_found (pre post : list node) (k v value : node) (key : gostring) :
  Nat.even (List.length pre) = true ->
  str_mem key (keys pre) = false ->
  Value k = key ->
  put_replace (pre ++ k :: v :: post) key value
  = Ok (Some (pre ++ k :: value :: post, v)).
Proof.
  intros E. pair_induction pre E.
  - intros _ <-. simpl. now rewrite str_eqb_refl.
  - simpl. intros M Ek. apply orb_false_iff in M as [M1 M2].
    rewrite str_eqb_sym, M1. rewrite IH by assumption. reflexivity.
Qed.

Lemma put_replace_none (c : list node) (key : gostring) (value : node) :
  Nat.even (List.length c) = true ->
  str_mem key (keys c) = false ->
  put_replace c key value = Ok None.
Proof.
  intros E. pair_induction c E; [reflexivity|].
  simpl. intros M. apply orb_false_iff in M as [M1 M2].
  rewrite str_eqb_sym, M1, IH by assumption. reflexivity.
Qed.

Lemma put_replace_some (c : list node) (key : gostring) (value : node) :
  Nat.even (List.length c) = true ->
  str_mem key (keys c) = true ->
  exists pre k v post,
    c = pre ++ k :: v :: post /\ Nat.even (List.length pre) = true
    /\ str_mem key (keys pre) = false /\ Value k = key.
Proof.
  intros E. pair_induction c E; [discriminate|].
  simpl. destruct (str_eqb key (Value k)) eqn:Ek; simpl.
  - intros _. exists [], k, v, rest. apply str_eqb_eq in Ek. auto.
  - intros M. destruct (IH M) as (pre & k' & v' & post & -> & E' & M' & V').
    exists (k :: v :: pre), k', v', post. simpl. rewrite Ek. auto.
Qed.

(** The position found by the second loop of [Put] splits the content
    between the keys that are not greater than [key] and the first key
    that is. *)
Lemma put_pos_some (c : list node) (key : gostring) (i p : nat) :
  Nat.even (List.length c) = true ->
  put_pos c key i = Some p ->
  exists pre k v post,
    c = pre ++ k :: v :: post /\ p = i + List.length pre
    /\ Nat.even (List.length pre) = true
    /\ (forall s, In s (keys pre) -> str_ltb key s = false)
    /\ str_ltb key (Value k) = true.
Proof.
  intros E. revert i. pair_induction c E; [discriminate|].
  intros i. simpl. destruct (str_ltb key (Value k)) eqn:L.
  - intros [= <-]. exists [], k, v, rest. simpl. repeat split; auto; try lia; try easy.
  - intros P. destruct (IH _ P) as (pre & k' & v' & post & -> & -> & E' & A & L').
    exists (k :: v :: pre), k', v', post. simpl. repeat split; auto; try lia.
    intros s [<-|I]; auto.
Qed.

Lemma put_pos_none (c : list node) (key : gostring) (i : nat) :
  Nat.even (List.length c) = true ->
  put_pos c key i = None ->
  forall s, In s (keys c) -> str_ltb key s = false.
Proof.
  intros E. revert i. pair_induction c E; [contradiction|].
  intros i. simpl. destruct (str_ltb key (Value k)) eqn:L; [discriminate|].
  intros P s [<-|I]; eauto.
Qed.

Lemma firstn_app_exact {A} (a b : list A) : firstn (List.length a) (a ++ b) = a.
Proof. induction a; simpl; congruence. Qed.

Lemma skipn_app_exact {A} (a b : list A) : skipn (List.length a) (a ++ b) = b.
Proof. induction a; simpl; congruence. Qed.

Lemma ascending_insert (pre post : list gostring) (key : gostring) :
  (forall s, In s pre -> str_ltb key s = false) ->
  match post with k :: _ => str_ltb key k = true | [] => True end ->
  ascending (pre ++ post) = true ->
  ascending (pre ++ key :: post) = true.
Proof.
  intros A B. induction pre as [|a pre IH]; simpl.
  - destruct post as [|k post]; auto. intros ->.
    unfold str_leb. now rewrite (str_ltb_asym _ _ B).
  - destruct pre as [|b pre].
    + simpl in *. intros S. unfold str_leb at 1. rewrite (A a) by auto. simpl.
      apply IH; auto. destruct post; auto. now apply andb_true_iff in S as [_ S].
    + simpl in *. intros S. apply andb_true_iff in S as [S1 S2]. rewrite S1. simpl.
      apply IH; auto.
Qed.

(** The three cases of [Put]. *)
Lemma Put_cases (n key value : node) :
  Kind n = MappingNode ->
  Nat.even (List.length (Content n)) = true ->
  (forall pre k v post,
      Content n = pre ++ k :: v :: post ->
      Nat.even (List.length pre) = true ->
      str_mem (Value key) (keys pre) = false ->
      Value k = Value key ->
      Put n key value = Ok (setContent n (pre ++ k :: value :: post) (Cap n), Some v))
  /\ (str_mem (Value key) (keys (Content n)) = false ->
      Kind key = ScalarNode ->
      exists pre post,
        Content n = pre ++ post
        /\ Nat.even (List.length pre) = true
        /\ (forall s, In s (keys pre) -> str_ltb (Value key) s = false)
        /\ match keys post with
           | s :: _ => str_ltb (Value key) s = true
           | [] => post = []
           end
        /\ Put n key value
           = Ok (setContent n (pre ++ key :: value :: post)
                   (append_cap (Cap n) (List.length (Content n) + 2)), None)
        /\ (ascending (keys (Content n)) = true ->
            ascending (keys (pre ++ key :: value :: post)) = true))
  /\ (str_mem (Value key) (keys (Content n)) = false ->
      Kind key <> ScalarNode ->
      Put n key value
      = Ok (setContent n (Content n ++ [key; value])
              (append_cap (Cap n) (List.length (Content n) + 2)), None)).
Proof.
  intros K E. unfold Put. rewrite K. simpl. split; [|split].
  - intros pre k v post C Epre M V. rewrite C.
    rewrite put_replace_found by assumption. reflexivity.
  - intros M Ks. rewrite put_replace_none by assumption. simpl.
    rewrite Ks. simpl.
    destruct (put_pos (Content n) (Value key) 0) as [p|] eqn:P.
    + destruct (put_pos_some _ _ _ _ E P) as (pre & k & v & post & C & -> & Epre & A & L).
      exists pre, (k :: v :: post). simpl.
      rewrite C at 1 2 3. rewrite firstn_app_exact, skipn_app_exact.
      repeat split; auto.
      rewrite C. rewrite !keys_app by assumption. simpl.
      intros S. apply ascending_insert; auto.
    + exists (Content n), []. rewrite app_nil_r.
      rewrite firstn_all, skipn_all. simpl.
      repeat split; auto.
      * eapply put_pos_none; eauto.
      * rewrite keys_app by assumption. simpl. intros S.
        apply ascending_insert; auto.
        -- eapply put_pos_none; eauto.
        -- now rewrite app_nil_r.
  - intros M Ks. rewrite put_replace_none by assumption. simpl.
    destruct (kind_eqb (Kind key) ScalarNode) eqn:Kk.
    + destruct (Kind key); try discriminate. contradiction.
    + rewrite firstn_all, skipn_all. reflexivity.
Qed.

(** C4 (amended): [Put] on a Mapping.  An existing key has its value
    replaced in place and the old value is returned.  A new key whose
    key node is a scalar, whatever the kind of its value, is inserted
    just before the first existing key that is lexically greater, at
    the end when there is none, which keeps ascending keys ascending.
    A new key whose key node is not a scalar is appended at the end. *)
Theorem Put_spec (n key value : node) :
  Kind n = MappingNode ->
  Nat.even (List.length (Content n)) = true ->
  (forall pre k v post,
      Content n = pre ++ k :: v :: post ->
      Nat.even (List.length pre) = true ->
      str_mem (Value key) (keys pre) = false ->
      Value k = Value key ->
      Put n key value = Ok (setContent n (pre ++ k :: value :: post) (Cap n), Some v))
  /\ (str_mem (Value key) (keys (Content n)) = false ->
      Kind key = ScalarNode ->
      exists pre post,
        Content n = pre ++ post
        /\ Nat.even (List.length pre) = true
        /\ (forall s, In s (keys pre) -> str_ltb (Value key) s = false)
        /\ match keys post with
           | s :: _ => str_ltb (Value key) s = true
           | [] => post = []
           end
        /\ Put n key value
           = Ok (setContent n (pre ++ key :: value :: post)
                   (append_cap (Cap n) (List.length (Content n) + 2)), None)
        /\ (ascending (keys (Content n)) = true ->
            ascending (keys (pre ++ key :: value :: post)) = true))
  /\ (str_mem (Value key) (keys (Content n)) = false ->
      Kind key <> ScalarNode ->
      Put n key value
      = Ok (setContent n (Content n ++ [key; value])
              (append_cap (Cap n) (List.length (Content n) + 2)), None)).
Proof. apply Put_cases. Qed.

End PutFacts.

(** C4, witness: a new scalar key "b" goes between "a" and "c", an
    existing key has its value replaced, a sequence used as key goes to
    the end. *)
Lemma Put_spec_witness :
  let n := mappingOf [scalarOf "a"; scalarOf "1"; scalarOf "c"; scalarOf "3"] 4 in
  (exists pre post,
      Content n = pre ++ post
      /\ (forall s, In s (keys pre) -> str_ltb (go "b") s = false)
      /\ @Put sample n (scalarOf "b") (mappingOf [] 0)
         = Ok (mappingOf (pre ++ scalarOf "b" :: mappingOf [] 0 :: post) 8, None))
  /\ @Put sample n (scalarOf "c") (scalarOf "4")
     = Ok (mappingOf [scalarOf "a"; scalarOf "1"; scalarOf "c"; scalarOf "4"] 4,
           Some (scalarOf "3"))
  /\ @Put sample n (sequenceOf [] 0) (scalarOf "4")
     = Ok (mappingOf [scalarOf "a"; scalarOf "1"; scalarOf "c"; scalarOf "3";
                      sequenceOf [] 0; scalarOf "4"] 8, None).
Proof.
  intros n.
  destruct (@Put_spec sample n (scalarOf "b") (mappingOf [] 0) eq_refl eq_refl)
    as (_ & New & _).
  destruct (@Put_spec sample n (scalarOf "c") (scalarOf "4") eq_refl eq_refl)
    as (Old & _ & _).
  destruct (@Put_spec sample n (sequenceOf [] 0) (scalarOf "4") eq_refl eq_refl)
    as (_ & _ & End_).
  split; [|split].
  - destruct (New eq_refl eq_refl) as (pre & post & C & _ & A & _ & P & _).
    exists pre, post. repeat split; [exact C | exact A | exact P].
  - exact (Old [scalarOf "a"; scalarOf "1"] (scalarOf "c") (scalarOf "3") []
             eq_refl eq_refl eq_refl eq_refl).
  - apply End_; [reflexivity | discriminate].
Defined.

(** C4, as stated, fails: a new (scalar) key with a Mapping as value is
    not appended at the end but inserted in key order. *)
Lemma Put_nonscalar_value_not_appended :
  let n := mappingOf [scalarOf "b"; scalarOf "1"] 2 in
  let key := scalarOf "a" in
  let value := mappingOf [] 0 in
  Kind value <> ScalarNode
  /\ HasKey n key = Ok false
  /\ @Put sample n key value
     = Ok (mappingOf [key; value; scalarOf "b"; scalarOf "1"] 4, None)
  /\ [key; value; scalarOf "b"; scalarOf "1"] <> Content n ++ [key; value].
Proof.
  simpl. repeat split; discriminate.
Qed.

Section Invariant.
Context `{Externals}.

(** Induction over a tree, with the property known of every child. *)
Lemma node_ind' (P : node -> Prop) :
  (forall n, Forall P (Content n) -> P n) -> forall n, P n.
Proof.
  intros Hn. fix IH 1. intros [k t v l f c cap]. apply Hn. simpl.
  revert c. fix IHc 1. intros [|x c]; constructor; [apply IH | apply IHc].
Qed.

Lemma wf_unfold (n : node) :
  wf n <->
  (Kind n = MappingNode ->
   Nat.even (List.length (Content n)) = true /\ distinct (keys (Content n)) = true)
  /\ Forall wf (Content n).
Proof.
  unfold wf. destruct n as [k t v l f c cap]. simpl.
  rewrite andb_true_iff, forallb_forall, Forall_forall.
  split; intros [A B]; split; auto.
  - intros ->. simpl in A. now apply andb_true_iff in A.
  - destruct k; simpl; auto. apply andb_true_iff. auto.
Qed.

Lemma wf_children (n c : node) : wf n -> In c (Content n) -> wf c.
Proof.
  intros W I. apply wf_unfold in W as [_ W]. rewrite Forall_forall in W. auto.
Qed.

Lemma wf_mapping (n : node) :
  wf n -> Kind n = MappingNode ->
  Nat.even (List.length (Content n)) = true /\ distinct (keys (Content n)) = true.
Proof. intros W. apply wf_unfold in W as [W _]. exact W. Qed.

Lemma wf_setContent (n : node) (c : list node) (cap : nat) :
  (Kind n = MappingNode ->
   Nat.even (List.length c) = true /\ distinct (keys c) = true) ->
  Forall wf c -> wf (setContent n c cap).
Proof. intros A B. apply wf_unfold. simpl. auto. Qed.

Lemma str_mem_app (s : gostring) (a b : list gostring) :
  str_mem s (a ++ b) = str_mem s a || str_mem s b.
Proof. apply existsb_app. Qed.

Lemma distinct_app (a b : list gostring) :
  distinct (a ++ b) = true <->
  distinct a = true /\ distinct b = true
  /\ forall s, str_mem s a = true -> str_mem s b = false.
Proof.
  induction a as [|x a IH]; simpl.
  - intuition discriminate.
  - rewrite !andb_true_iff, !negb_true_iff, IH, str_mem_app, orb_false_iff.
    split.
    + intros [[A1 A2] (B1 & B2 & B3)]. repeat split; auto.
      intros s M. apply orb_true_iff in M as [M|M]; auto.
      apply str_eqb_eq in M. now subst.
    + intros ([A1 A2] & B & C). repeat split; auto.
      * apply C. now rewrite str_eqb_refl.
      * intros s M. apply C. rewrite M. apply orb_true_r.
Qed.

Lemma distinct_insert (a b : list gostring) (s : gostring) :
  distinct (a ++ b) = true -> str_mem s (a ++ b) = false ->
  distinct (a ++ s :: b) = true.
Proof.
  rewrite str_mem_app, orb_false_iff. intros D [Ma Mb].
  apply distinct_app in D as (Da & Db & Dab).
  apply distinct_app. simpl. rewrite Mb, Db. repeat split; auto.
  intros t M. rewrite (Dab t M), orb_false_r.
  apply str_eqb_neq. intros ->. congruence.
Qed.

(** What [Put] returns on a Mapping with an even number of children. *)
Lemma Put_total (n key value : node) :
  Kind n = MappingNode ->
  Nat.even (List.length (Content n)) = true ->
  exists n' old,
    Put n key value = Ok (n', old)
    /\ Kind n' = MappingNode
    /\ Nat.even (List.length (Content n')) = true
    /\ (forall s, get_loop (Content n') s
                  = if str_eqb (Value key) s then Ok (Some value)
                    else get_loop (Content n) s)
    /\ (forall P : node -> Prop,
           Forall P (Content n) -> P key -> P value -> Forall P (Content n'))
    /\ (distinct (keys (Content n)) = true -> distinct (keys (Content n')) = true).
Proof.
  intros K E. destruct (Put_cases n key value K E) as (Old & NewS & NewO).
  destruct (str_mem (Value key) (keys (Content n))) eqn:M.
  - destruct (put_replace_some _ _ value E M) as (pre & k & v & post & C & Epre & Mpre & V).
    rewrite (Old pre k v post C Epre Mpre V).
    eexists _, _. split; [reflexivity|]. simpl.
    assert (Epost : Nat.even (List.length (k :: v :: post)) = true).
    { rewrite <- E, C. symmetry. now apply even_app. }
    repeat split; auto.
    + rewrite even_app by assumption. exact Epost.
    + intros s. rewrite C, !get_loop_app by assumption.
      destruct (get_loop_ok pre s Epre) as [[w|] G]; rewrite G.
      * destruct (str_eqb (Value key) s) eqn:Es; auto.
        apply str_eqb_eq in Es. subst s.
        apply get_loop_mem in Mpre; auto. congruence.
      * simpl. rewrite V. destruct (str_eqb (Value key) s); auto.
    + intros P F Pk Pv. rewrite C in F. apply Forall_app in F as [F1 F2].
      apply Forall_app. split; auto.
      inversion F2 as [|? ? Pk' F3]; subst. inversion F3; subst. auto.
    + rewrite C, !keys_app by assumption. auto.
  - assert (exists pre post cap,
               Content n = pre ++ post /\ Nat.even (List.length pre) = true
               /\ Put n key value
                  = Ok (setContent n (pre ++ key :: value :: post) cap, None))
      as (pre & post & cap & C & Epre & P).
    { destruct (kind_eqb (Kind key) ScalarNode) eqn:Kk.
      - destruct NewS as (pre & post & C & Epre & _ & _ & P & _); auto.
        { destruct (Kind key); auto; discriminate. }
        eauto 10.
      - exists (Content n), [], (append_cap (Cap n) (List.length (Content n) + 2)).
        rewrite app_nil_r. repeat split; auto. apply NewO; auto.
        intros Ks. rewrite Ks in Kk. discriminate. }
    rewrite P. eexists _, _. split; [reflexivity|]. simpl.
    assert (Epost : Nat.even (List.length post) = true).
    { rewrite <- E, C. symmetry. now apply even_app. }
    repeat split; auto.
    + rewrite even_app by assumption. exact Epost.
    + intros s. rewrite C, !get_loop_app by assumption.
      destruct (get_loop_ok pre s Epre) as [[w|] G]; rewrite G.
      * destruct (str_eqb (Value key) s) eqn:Es; auto.
        apply str_eqb_eq in Es. subst s.
        rewrite C, keys_app, str_mem_app in M by assumption.
        apply orb_false_iff in M as [M _].
        apply get_loop_mem in M; auto. congruence.
      * simpl. destruct (str_eqb (Value key) s); auto.
    + intros Q F Pk Pv. rewrite C in F. apply Forall_app in F as [F1 F2].
      apply Forall_app. split; auto.
    + intros D. rewrite C in D, M. rewrite keys_app in D, M by assumption.
      rewrite keys_app by assumption. simpl. apply distinct_insert; auto.
Qed.

Lemma Put_wf (n key value : node) :
  Kind n = MappingNode -> wf n -> wf key -> wf value ->
  exists n' old, Put n key value = Ok (n', old) /\ wf n' /\ Kind n' = MappingNode.
Proof.
  intros K W Wk Wv. destruct (wf_mapping _ W K) as [E D].
  destruct (Put_total n key value K E) as (n' & old & P & K' & E' & _ & F & D').
  exists n', old. repeat split; auto.
  apply wf_unfold. split; auto.
  apply F; auto. now apply wf_unfold in W.
Qed.

Lemma delete_loop_spec (c : list node) (key : gostring) :
  Nat.even (List.length c) = true ->
  forall acc cap ret, exists cap' ret',
    delete_loop c key acc cap ret = Ok (acc ++ remove_pairs c key, cap', ret').
Proof.
  intros E. pair_induction c E; intros acc cap ret.
  - simpl. rewrite app_nil_r. eauto.
  - simpl. destruct (str_eqb (Value k) key).
    + apply IH.
    + destruct (IH (acc ++ [k; v]) (append_cap cap (List.length acc + 2)) ret)
        as (cap' & ret' & ->).
      rewrite <- app_assoc. simpl. eauto.
Qed.

Lemma remove_pairs_even (c : list node) (key : gostring) :
  Nat.even (List.length c) = true ->
  Nat.even (List.length (remove_pairs c key)) = true.
Proof.
  intros E. pair_induction c E; auto.
  simpl. destruct (str_eqb (Value k) key); auto.
Qed.

Lemma remove_pairs_In (c : list node) (key : gostring) (x : node) :
  Nat.even (List.length c) = true -> In x (remove_pairs c key) -> In x c.
Proof.
  intros E. pair_induction c E; auto.
  simpl. destruct (str_eqb (Value k) key); simpl; intuition.
Qed.

Lemma remove_pairs_mem (c : list node) (key s : gostring) :
  Nat.even (List.length c) = true ->
  str_mem s (keys (remove_pairs c key)) = true -> str_mem s (keys c) = true.
Proof.
  intros E. pair_induction c E; auto.
  simpl. destruct (str_eqb (Value k) key); simpl.
  - intros M. rewrite IH by assumption. apply orb_true_r.
  - intros M. apply orb_true_iff in M as [M|M].
    + now rewrite M.
    + rewrite IH by assumption. apply orb_true_r.
Qed.

Lemma remove_pairs_distinct (c : list node) (key : gostring) :
  Nat.even (List.length c) = true ->
  distinct (keys c) = true -> distinct (keys (remove_pairs c key)) = true.
Proof.
  intros E. pair_induction c E; auto.
  simpl. intros D. apply andb_true_iff in D as [D1 D2].
  destruct (str_eqb (Value k) key); simpl; auto.
  rewrite IH by assumption. rewrite andb_true_r.
  apply negb_true_iff. apply negb_true_iff in D1.
  destruct (str_mem (Value k) (keys (remove_pairs rest key))) eqn:M; auto.
  apply remove_pairs_mem in M; auto. congruence.
Qed.

Lemma Delete_wf (n : node) (key : gostring) :
  wf n -> exists n' removed, Delete n key = Ok (n', removed) /\ wf n'.
Proof.
  intros W. unfold Delete. destruct (kind_eqb (Kind n) MappingNode) eqn:K; simpl.
  - assert (Km : Kind n = MappingNode) by (destruct (Kind n); auto; discriminate).
    destruct (wf_mapping _ W Km) as [E D].
    destruct (delete_loop_spec (Content n) key E [] 0 None) as (cap' & ret' & ->). simpl.
    eexists _, _. split; [reflexivity|].
    apply wf_setContent.
    + intros _. split; [now apply remove_pairs_even | now apply remove_pairs_distinct].
    + apply Forall_forall. intros x I. eapply wf_children; eauto.
      eapply remove_pairs_In; eauto.
  - eauto.
Qed.

Lemma Merge_unfold (n other : node) :
  Merge n other =
  if negb (kind_eqb (Kind n) (Kind other)) then Ok other
  else match Kind n with
       | MappingNode => merge_each Merge n (Content other)
       | SequenceNode => Ok (fold_left Append (Content other) n)
       | _ => Ok other
       end.
Proof.
  destruct other as [k t v l f c cap]. simpl.
  destruct (negb (kind_eqb (Kind n) k)); [reflexivity|].
  destruct (Kind n); try reflexivity.
  revert n. induction c as [c IH] using
    (well_founded_induction (Wf_nat.well_founded_ltof _ (@List.length node))).
  intros n. destruct c as [|k1 [|v1 rest]]; try reflexivity.
  simpl. destruct (HasKey n k1) as [[|]|]; simpl; try reflexivity.
  - destruct (Get n (Value k1)) as [[cv|]|]; simpl; try reflexivity.
    destruct (Merge cv v1); simpl; try reflexivity.
    destruct (Put n k1 a) as [[n' o]|]; simpl; try reflexivity.
    apply IH. unfold Wf_nat.ltof. simpl. lia.
  - destruct (Put n k1 v1) as [[n' o]|]; simpl; try reflexivity.
    apply IH. unfold Wf_nat.ltof. simpl. lia.
Qed.

Lemma fold_Append_sequence (c : list node) (n : node) :
  Kind n = SequenceNode ->
  Kind (fold_left Append c n) = SequenceNode
  /\ Content (fold_left Append c n) = Content n ++ c.
Proof.
  revert n. induction c as [|x c IH]; intros n K; simpl.
  - now rewrite app_nil_r.
  - destruct (IH (Append n x)) as [K' C'].
    + unfold Append. rewrite K. simpl. exact K.
    + split; auto. rewrite C'. unfold Append. rewrite K. simpl.
      now rewrite <- app_assoc.
Qed.

Lemma fold_Append_wf (c : list node) (n : node) :
  Kind n = SequenceNode -> wf n -> Forall wf c -> wf (fold_left Append c n).
Proof.
  intros K W F. destruct (fold_Append_sequence c n K) as [K' C'].
  apply wf_unfold. split.
  - rewrite K'. discriminate.
  - rewrite C'. apply Forall_app. split; auto. now apply wf_unfold in W.
Qed.

Lemma HasKey_Get (n k : node) :
  Kind n = MappingNode -> Nat.even (List.length (Content n)) = true ->
  exists r, Get n (Value k) = Ok r
            /\ HasKey n k = Ok (match r with Some _ => true | None => false end).
Proof.
  intros K E. unfold Get, HasKey. rewrite K. simpl.
  destruct (get_loop_ok (Content n) (Value k) E) as [r G]. rewrite G. simpl. eauto.
Qed.

Lemma Get_In (n : node) (key : gostring) (v : node) :
  Get n key = Ok (Some v) -> In v (Content n).
Proof.
  unfold Get. destruct (negb (kind_eqb (Kind n) MappingNode)); [discriminate|].
  apply get_loop_In.
Qed.

(** [Merge] of well-formed trees returns a well-formed tree. *)
Lemma Merge_wf (other n : node) :
  wf n -> wf other -> exists m, Merge n other = Ok m /\ wf m.
Proof.
  revert n. induction other as [other IHo] using node_ind'. intros n W Wo.
  rewrite Merge_unfold. destruct (negb (kind_eqb (Kind n) (Kind other))) eqn:Kd; [eauto|].
  apply negb_false_iff in Kd.
  destruct (Kind n) eqn:K; eauto.
  - exists (fold_left Append (Content other) n). split; auto.
    apply fold_Append_wf; auto. now apply wf_unfold in Wo.
  - assert (Ko : Kind other = MappingNode) by (destruct (Kind other); auto; discriminate).
    destruct (wf_mapping _ Wo Ko) as [E _].
    assert (Fo : Forall wf (Content other)) by now apply wf_unfold in Wo.
    clear Wo Ko Kd. revert n W K.
    generalize dependent (Content other). intros c IHc E.
    pattern c. revert IHc. pattern c. apply pairs_ind; [ | | exact E]; clear E c.
    + simpl. eauto.
    + intros k v rest Erest IH IHc Fo n W K.
      inversion IHc as [|? ? _ IHc']; subst. inversion IHc' as [|? ? IHv IHrest]; subst.
      inversion Fo as [|? ? Wk Fo']; subst. inversion Fo' as [|? ? Wv Fo'']; subst.
      simpl.
      destruct (wf_mapping _ W K) as [En _].
      destruct (HasKey_Get n k K En) as (r & G & Hk). rewrite Hk. simpl.
      destruct r as [cv|].
      * rewrite G. simpl.
        assert (Wcv : wf cv).
        { apply (wf_children n cv W). apply (Get_In n (Value k) cv G). }
        destruct (IHv cv Wcv Wv) as (nv & Mv & Wnv).
        rewrite Mv. simpl.
        destruct (Put_wf n k nv K W Wk Wnv) as (n' & old & P & W' & K'). rewrite P. simpl.
        apply IH; auto.
      * destruct (Put_wf n k v K W Wk Wv) as (n' & old & P & W' & K'). rewrite P. simpl.
        apply IH; auto.
Qed.

Lemma Get_mapping (n : node) (key : gostring) :
  Kind n = MappingNode -> Get n key = get_loop (Content n) key.
Proof. intros K. unfold Get. now rewrite K. Qed.

(** The loop of [Merge] over distinct keys, key by key. *)
Lemma merge_each_spec (c : list node) :
  Nat.even (List.length c) = true ->
  distinct (keys c) = true -> Forall wf c ->
  forall n, wf n -> Kind n = MappingNode ->
  exists M, merge_each Merge n c = Ok M /\ wf M /\ Kind M = MappingNode
    /\ forall s,
         match get_loop c s with
         | Ok (Some b) =>
             match get_loop (Content n) s with
             | Ok (Some a) =>
                 exists m, Merge a b = Ok m /\ get_loop (Content M) s = Ok (Some m)
             | _ => get_loop (Content M) s = Ok (Some b)
             end
         | _ => get_loop (Content M) s = get_loop (Content n) s
         end.
Proof.
  intros E. pair_induction c E.
  - intros _ _ n W K. exists n. simpl. auto.
  - intros D F n W K. simpl in D. apply andb_true_iff in D as [D1 D2].
    apply negb_true_iff in D1.
    inversion F as [|? ? Wk F']; subst. inversion F' as [|? ? Wv F'']; subst.
    destruct (wf_mapping _ W K) as [En _].
    destruct (HasKey_Get n k K En) as (r & G & Hk).
    assert (exists n1 x, wf n1 /\ Kind n1 = MappingNode
              /\ (forall s, get_loop (Content n1) s
                            = if str_eqb (Value k) s then Ok (Some x)
                              else get_loop (Content n) s)
              /\ match r with
                 | Some cv => Merge cv v = Ok x
                 | None => x = v
                 end
              /\ merge_each Merge n (k :: v :: rest) = merge_each Merge n1 rest)
      as (n1 & x & W1 & K1 & G1 & X & Step).
    { simpl. rewrite Hk. simpl. destruct r as [cv|].
      - rewrite G. simpl.
        assert (Wcv : wf cv).
        { apply (wf_children n cv W). apply (Get_In n (Value k) cv G). }
        destruct (Merge_wf v cv Wcv Wv) as (nv & Mv & Wnv). rewrite Mv. simpl.
        destruct (Put_wf n k nv K W Wk Wnv) as (n' & old & P & W' & K').
        destruct (Put_total n k nv K En) as (n'' & old' & P' & _ & _ & Gp & _).
        rewrite P in P'. injection P' as <- <-. rewrite P. simpl.
        exists n', nv. auto.
      - destruct (Put_wf n k v K W Wk Wv) as (n' & old & P & W' & K').
        destruct (Put_total n k v K En) as (n'' & old' & P' & _ & _ & Gp & _).
        rewrite P in P'. injection P' as <- <-. rewrite P. simpl.
        exists n', v. auto. }
    rewrite Step. destruct (IH D2 F'' n1 W1 K1) as (M & Mm & WM & KM & Spec).
    exists M. repeat split; auto.
    intros s. specialize (Spec s). rewrite G1 in Spec.
    rewrite Get_mapping in G by assumption.
    cbn [get_loop]. destruct (str_eqb (Value k) s) eqn:Ks.
    + apply str_eqb_eq in Ks. subst s.
      apply get_loop_mem in D1; auto. rewrite D1 in Spec.
      rewrite G. destruct r as [cv|]; [eauto|]. now subst x.
    + exact Spec.
Qed.

(** C5: for Mappings [A] and [B] of the data model, [Merge] keeps every
    key that only one of them has with its value, puts under a key that
    both have the merge of the two values, and the merge of two
    Sequences is [A]'s elements followed by [B]'s. *)
Theorem Merge_mappings (A B : node) :
  wf A -> wf B -> Kind A = MappingNode -> Kind B = MappingNode ->
  exists M, Merge A B = Ok M /\ Kind M = MappingNode
    /\ forall key,
         match Get A key, Get B key with
         | Ok (Some a), Ok None => Get M key = Ok (Some a)
         | Ok None, Ok (Some b) => Get M key = Ok (Some b)
         | Ok (Some a), Ok (Some b) =>
             exists m, Merge a b = Ok m /\ Get M key = Ok (Some m)
                       /\ (Kind a = SequenceNode -> Kind b = SequenceNode ->
                           Content m = Content a ++ Content b)
         | Ok None, Ok None => Get M key = Ok None
         | _, _ => False
         end.
Proof.
  intros WA WB KA KB. rewrite Merge_unfold, KA, KB. simpl.
  destruct (wf_mapping _ WA KA) as [EA _]. destruct (wf_mapping _ WB KB) as [EB DB].
  assert (FB : Forall wf (Content B)) by now apply wf_unfold in WB.
  destruct (merge_each_spec (Content B) EB DB FB A WA KA) as (M & Mm & WM & KM & Spec).
  exists M. repeat split; auto.
  intros key. specialize (Spec key). rewrite !Get_mapping by assumption.
  destruct (get_loop_ok (Content A) key EA) as [ra Ga].
  destruct (get_loop_ok (Content B) key EB) as [rb Gb].
  rewrite Ga, Gb in *. destruct ra as [a|], rb as [b|]; auto.
  destruct Spec as (m & Mab & Gm). exists m. repeat split; auto.
  intros Ka Kb. rewrite Merge_unfold, Ka, Kb in Mab. simpl in Mab.
  injection Mab as <-. now apply fold_Append_sequence.
Qed.

End Invariant.

(** C5, witness: the documents of the README. *)
Lemma Merge_mappings_witness :
  let A := mappingOf [scalarOf "obj"; mappingOf [scalarOf "key"; scalarOf "value"] 2;
                      scalarOf "arr"; sequenceOf [scalarOf "0"] 1;
                      scalarOf "s"; scalarOf "string"] 8 in
  let B := mappingOf [scalarOf "obj"; mappingOf [scalarOf "key"; scalarOf "overwritten"] 2;
                      scalarOf "arr"; sequenceOf [scalarOf "10"; scalarOf "20"] 2] 4 in
  exists M, @Merge sample A B = Ok M
    /\ @Get M (go "s") = Ok (Some (scalarOf "string"))
    /\ exists m, Get M (go "arr") = Ok (Some m)
         /\ Content m = [scalarOf "0"; scalarOf "10"; scalarOf "20"].
Proof.
  intros A B.
  destruct (@Merge_mappings sample A B eq_refl eq_refl eq_refl eq_refl)
    as (M & Mm & _ & Spec).
  exists M. split; [exact Mm|]. split.
  - exact (Spec (go "s")).
  - destruct (Spec (go "arr")) as (m & _ & Gm & C).
    exists m. split; [exact Gm|]. exact (C eq_refl eq_refl).
Defined.

Section Patches.
Context `{Externals}.

(** [FindNodeByJSONPointer] formats the cause into a new error, so that
    what it returns is never [errNotFound] itself nor wraps it. *)
Lemma FindNodeByJSONPointer_error (n : node) (path : gostring)
    (r : option ptr) (err : option error) :
  FindNodeByJSONPointer n path = Ok (r, err) ->
  errors_Is_opt err errNotFound = false
  /\ (err <> None -> r = None).
Proof.
  unfold FindNodeByJSONPointer, parseJSONPointer.
  destruct (negb (HasPrefix path (go "/"))).
  - intros [= <- <-]. auto.
  - destruct (str_eqb path (go "/")).
    + intros [= <- <-]. split; [reflexivity|congruence].
    + destruct (findNodeByJSONPointer n [] _) as [[r' [e|]]|]; simpl;
        try discriminate; intros [= <- <-]; split; auto; congruence.
Qed.

(** The auto-creation branch of [jsonPatchAdd] is never entered. *)
Lemma jsonPatchAdd_eq (n : node) (jp : jsonPointer) (newValue : node) :
  jsonPatchAdd n jp newValue =
  ('(parent, child) <- Pop jp ;;
   '(target, err) <- FindNodeByJSONPointer n (jsonPointer_String parent) ;;
   match err, target with
   | Some e, _ => Ok (n, Some e)
   | None, Some target => addAt n parent child target newValue
   | None, None => Panic "nil pointer dereference"
   end).
Proof.
  unfold jsonPatchAdd. destruct (Pop jp) as [[parent child]|]; simpl; auto.
  destruct (FindNodeByJSONPointer n (jsonPointer_String parent)) as [[target err]|] eqn:F;
    simpl; auto.
  destruct (FindNodeByJSONPointer_error _ _ _ _ F) as [-> _]. reflexivity.
Qed.

Lemma get_loop_split (c : list node) (key : gostring) (v : node) :
  get_loop c key = Ok (Some v) ->
  exists pre k post,
    c = pre ++ k :: v :: post /\ Nat.even (List.length pre) = true
    /\ forall j, get_at c key j = Some (j + List.length pre + 1).
Proof.
  induction c as [c IH] using
    (well_founded_induction (Wf_nat.well_founded_ltof _ (@List.length node))).
  destruct c as [|k [|w rest]]; simpl; try discriminate.
  destruct (str_eqb (Value k) key).
  - intros [= ->]. exists [], k, rest. simpl.
    repeat split; auto; try (intros j; f_equal; lia).
  - intros G. destruct (IH rest) as (pre & k' & post & -> & E & A);
      [unfold Wf_nat.ltof; simpl; lia | exact G |].
    exists (k :: w :: pre), k', post. simpl.
    repeat split; auto; try (intros j; rewrite A; f_equal; lia).
Qed.

Lemma nth_error_middle (a : list node) (x : node) (b : list node) :
  nth_error (a ++ x :: b) (List.length a) = Some x.
Proof. induction a; simpl; auto. Qed.

(** Assigning a well-formed node to the place of a value of a Mapping,
    or of an element of a Sequence, keeps the parent well-formed. *)
Lemma store_value_wf (n : node) (pre : list node) (k v : node) (post : list node)
    (x : node) :
  wf n -> Content n = pre ++ k :: v :: post ->
  Nat.even (List.length pre) = true -> wf x ->
  wf (setContent n (firstn (List.length pre + 1) (Content n) ++ [x]
                    ++ skipn (List.length pre + 1 + 1) (Content n)) (Cap n)).
Proof.
  intros W C E Wx.
  assert (R : firstn (List.length pre + 1) (Content n) ++ [x]
              ++ skipn (List.length pre + 1 + 1) (Content n) = pre ++ k :: x :: post).
  { rewrite C.
    replace (pre ++ k :: v :: post) with ((pre ++ [k]) ++ v :: post)
      by (now rewrite <- app_assoc).
    replace (List.length pre + 1) with (List.length (pre ++ [k]))
      by (rewrite length_app; reflexivity).
    rewrite firstn_app_exact.
    replace ((pre ++ [k]) ++ v :: post) with (((pre ++ [k]) ++ [v]) ++ post)
      by (now rewrite <- !app_assoc).
    replace (List.length (pre ++ [k]) + 1) with (List.length ((pre ++ [k]) ++ [v]))
      by (rewrite !length_app; reflexivity).
    rewrite skipn_app_exact. now rewrite <- !app_assoc. }
  rewrite R. apply wf_unfold in W as [Wm Wc]. apply wf_setContent.
  - intros K. destruct (Wm K) as [En Dn]. rewrite C in En, Dn.
    rewrite even_app in * by assumption. rewrite keys_app in * by assumption. auto.
  - rewrite C in Wc. apply Forall_app in Wc as [W1 W2]. apply Forall_app. split; auto.
    inversion W2 as [|? ? Wk W3]; subst. inversion W3; subst. auto.
Qed.

Lemma Forall_take (P : node -> Prop) (i : nat) (l : list node) :
  Forall P l -> Forall P (firstn i l).
Proof.
  intros F. revert i. induction F; intros [|i]; simpl; auto.
Qed.

Lemma Forall_drop (P : node -> Prop) (i : nat) (l : list node) :
  Forall P l -> Forall P (skipn i l).
Proof.
  intros F. revert i. induction F; intros [|i]; simpl; auto.
Qed.

Lemma store_element_wf (n : node) (i : nat) (x : node) :
  wf n -> Kind n = SequenceNode -> wf x ->
  wf (setContent n (firstn i (Content n) ++ [x] ++ skipn (i + 1) (Content n)) (Cap n)).
Proof.
  intros W K Wx. apply wf_unfold in W as [_ Wc]. apply wf_setContent.
  - rewrite K. discriminate.
  - apply Forall_app. split; [now apply Forall_take|].
    constructor; auto. now apply Forall_drop.
Qed.

(** A resolved pointer leads to a well-formed node, and assigning a
    well-formed node through it keeps the tree well-formed. *)
Lemma findNodeByJSONPointer_wf (rest : jsonPointer) :
  forall n loc tn loc',
    wf n ->
    findNodeByJSONPointer n loc rest = Ok (Some (tn, loc'), None) ->
    exists l, loc' = loc ++ l /\ wf tn
              /\ forall new, wf new -> wf (store n l new).
Proof.
  induction rest as [|t rest IH]; intros n loc tn loc' W; simpl.
  - intros [= <- <-]. exists []. rewrite app_nil_r. auto.
  - destruct (kind_eqb (Kind n) MappingNode) eqn:K.
    + unfold Get. rewrite K. simpl.
      destruct (get_loop (Content n) (String t)) as [[c|]|] eqn:G; simpl; try discriminate.
      * destruct (get_loop_split _ _ _ G) as (pre & k & post & C & E & A).
        unfold value_index. rewrite A. simpl.
        assert (Wc : wf c).
        { apply (wf_children n c W). rewrite C. apply in_or_app. right. simpl. auto. }
        intros F. destruct (IH _ _ _ _ Wc F) as (l & -> & Wt & S).
        exists ((List.length pre + 1) :: l). rewrite <- app_assoc. simpl.
        repeat split; auto.
        intros new Wn.
        replace (nth_error (Content n) (List.length pre + 1)) with (Some c).
        -- apply (store_value_wf n pre k c post); auto.
        -- rewrite C.
           replace (pre ++ k :: c :: post) with ((pre ++ [k]) ++ c :: post)
             by (now rewrite <- app_assoc).
           replace (List.length pre + 1) with (List.length (pre ++ [k]))
             by (rewrite length_app; reflexivity).
           now rewrite nth_error_middle.
      * destruct (negb (IsIndex t)); [discriminate|].
        assert (Kn : kind_eqb (Kind n) SequenceNode = false)
          by (destruct (Kind n); auto; discriminate).
        rewrite Kn. simpl. discriminate.
    + simpl. destruct (negb (IsIndex t)); [discriminate|].
      destruct (kind_eqb (Kind n) SequenceNode) eqn:Ks; simpl; [|discriminate].
      destruct (Index t <? 0)%Z; [discriminate|].
      destruct (len (Content n) <=? Index t)%Z; [discriminate|].
      destruct (nth_error (Content n) (Z.to_nat (Index t))) as [c|] eqn:N; [|discriminate].
      assert (Wc : wf c) by (apply (wf_children n c W); eapply nth_error_In; eauto).
      intros F. destruct (IH _ _ _ _ Wc F) as (l & -> & Wt & S).
      exists (Z.to_nat (Index t) :: l). rewrite <- app_assoc. simpl.
      repeat split; auto.
      intros new Wn. rewrite N. apply store_element_wf; auto.
      destruct (Kind n); auto; discriminate.
Qed.

Lemma FindNodeByJSONPointer_wf (n : node) (path : gostring) (tn : node) (loc : list nat) :
  wf n ->
  FindNodeByJSONPointer n path = Ok (Some (tn, loc), None) ->
  wf tn /\ forall new, wf new -> wf (store n loc new).
Proof.
  intros W. unfold FindNodeByJSONPointer.
  destruct (parseJSONPointer path) as [p [e|]]; [discriminate|].
  destruct (str_eqb path (go "/")).
  - intros [= <- <-]. auto.
  - destruct (findNodeByJSONPointer n [] p) as [[r [e|]]|] eqn:F; simpl; try discriminate.
    intros [= ->].
    destruct (findNodeByJSONPointer_wf _ _ _ _ _ W F) as (l & -> & Wt & S). auto.
Qed.

Lemma addAt_wf (n : node) (parent : jsonPointer) (child : jsonPointerToken)
    (tn : node) (loc : list nat) (newValue n' : node) (err : option error) :
  wf n -> wf tn -> (forall new, wf new -> wf (store n loc new)) -> wf newValue ->
  addAt n parent child (tn, loc) newValue = Ok (n', err) -> wf n'.
Proof.
  intros W Wt S Wv. unfold addAt.
  assert (Ft : Forall wf (Content tn)) by now apply wf_unfold in Wt.
  destruct (IsIndex child && kind_eqb (Kind tn) SequenceNode) eqn:Seq.
  - apply andb_true_iff in Seq as [_ Ks].
    assert (Kt : Kind tn <> MappingNode) by (destruct (Kind tn); discriminate).
    destruct (Index child <? 0)%Z.
    + intros [= <- <-]. apply S. apply wf_setContent; [contradiction|].
      apply Forall_app. auto.
    + destruct (len (Content tn) <? Index child)%Z; [now intros [= <- <-]|].
      unfold insertBefore. destruct (Cap tn <? Z.to_nat (Index child) + 1); [discriminate|].
      simpl. intros [= <- <-]. apply S. apply wf_setContent; [contradiction|].
      apply Forall_app. split; [now apply Forall_take|].
      constructor; auto. now apply Forall_drop.
  - destruct (kind_eqb (Kind tn) MappingNode) eqn:Km; [|now intros [= <- <-]].
    assert (Kt : Kind tn = MappingNode) by (destruct (Kind tn); auto; discriminate).
    destruct (Put_wf tn (newStringNode (String child) (File n)) newValue Kt Wt eq_refl Wv)
      as (tn' & old & P & W' & _).
    rewrite P. simpl. intros [= <- <-]. auto.
Qed.

Lemma jsonPatchAdd_wf (n : node) (jp : jsonPointer) (newValue n' : node)
    (err : option error) :
  wf n -> wf newValue -> jsonPatchAdd n jp newValue = Ok (n', err) -> wf n'.
Proof.
  intros W Wv. rewrite jsonPatchAdd_eq.
  destruct (Pop jp) as [[parent child]|]; simpl; [|discriminate].
  destruct (FindNodeByJSONPointer n (jsonPointer_String parent))
    as [[target [e|]]|] eqn:F; simpl; try discriminate.
  - now intros [= <- <-].
  - destruct target as [[tn loc]|]; [|discriminate].
    destruct (FindNodeByJSONPointer_wf _ _ _ _ W F) as [Wt S].
    apply addAt_wf; auto.
Qed.

Lemma jsonPatchRemove_wf (n : node) (jp : jsonPointer) (n' : node)
    (err : option error) :
  wf n -> jsonPatchRemove n jp = Ok (n', err) -> wf n'.
Proof.
  intros W. unfold jsonPatchRemove.
  destruct (Pop jp) as [[parent child]|]; simpl; [|discriminate].
  destruct (FindNodeByJSONPointer n (jsonPointer_String parent))
    as [[target [e|]]|] eqn:F; simpl; try discriminate.
  - now intros [= <- <-].
  - destruct target as [[tn loc]|]; [|discriminate].
    destruct (FindNodeByJSONPointer_wf _ _ _ _ W F) as [Wt S].
    assert (Ft : Forall wf (Content tn)) by now apply wf_unfold in Wt.
    destruct (IsIndex child && negb (IsLastIndex child)
              && kind_eqb (Kind tn) SequenceNode) eqn:Seq.
    + apply andb_true_iff in Seq as [_ Ks].
      assert (Kt : Kind tn <> MappingNode) by (destruct (Kind tn); discriminate).
      destruct (len (Content tn) <=? Index child)%Z; [now intros [= <- <-]|].
      intros [= <- <-]. apply S. apply wf_setContent; [contradiction|].
      apply Forall_app. split; [now apply Forall_take | now apply Forall_drop].
    + destruct (kind_eqb (Kind tn) MappingNode); [|now intros [= <- <-]].
      destruct (Delete_wf tn (String child) Wt) as (tn' & removed & D & W').
      rewrite D. simpl. destruct removed; intros [= <- <-]; auto.
Qed.

Lemma processPatchNode_wf (n : node) (where_ op : gostring) (jp : jsonPointer)
    (newValue n' : node) (err : option error) :
  wf n -> wf newValue ->
  processPatchNode n where_ op jp newValue = Ok (n', err) -> wf n'.
Proof.
  intros W Wv. unfold processPatchNode.
  destruct (str_eqb op (go "add")).
  { destruct (jsonPatchAdd n jp newValue) as [[n1 e1]|] eqn:A; simpl; [|discriminate].
    intros [= <- <-]. exact (jsonPatchAdd_wf _ _ _ _ _ W Wv A). }
  destruct (str_eqb op (go "remove")).
  { destruct (jsonPatchRemove n jp) as [[n1 e1]|] eqn:R; simpl; [|discriminate].
    intros [= <- <-]. exact (jsonPatchRemove_wf _ _ _ _ W R). }
  destruct (str_eqb op (go "replace")); [|now intros [= <- <-]].
  destruct (jsonPatchRemove n jp) as [[n1 e1]|] eqn:R; simpl; [|discriminate].
  destruct (jsonPatchAdd n1 jp newValue) as [[n2 e2]|] eqn:A; simpl; [|discriminate].
  intros [= <- <-].
  exact (jsonPatchAdd_wf _ _ _ _ _ (jsonPatchRemove_wf _ _ _ _ W R) Wv A).
Qed.

(** C8: the invariant of the data model (every Mapping of the tree has
    an even number of children and pairwise distinct key strings) holds
    of the containers the engine makes and is preserved by [Put],
    [Delete], [Merge] and by the patch operations add, remove and
    replace. *)
Theorem invariant_preserved :
  (forall file s, wf (newMappingNode file) /\ wf (newSequenceNode file)
                  /\ wf (newStringNode s file))
  /\ (forall n key value, wf n -> wf key -> wf value ->
        exists n' old, Put n key value = Ok (n', old) /\ wf n')
  /\ (forall n key, wf n ->
        exists n' removed, Delete n key = Ok (n', removed) /\ wf n')
  /\ (forall n other, wf n -> wf other ->
        exists m, Merge n other = Ok m /\ wf m)
  /\ (forall n jp newValue n' err, wf n -> wf newValue ->
        jsonPatchAdd n jp newValue = Ok (n', err) -> wf n')
  /\ (forall n jp n' err, wf n ->
        jsonPatchRemove n jp = Ok (n', err) -> wf n')
  /\ (forall n where_ op jp newValue n' err, wf n -> wf newValue ->
        processPatchNode n where_ op jp newValue = Ok (n', err) -> wf n').
Proof.
  split; [|split; [|split; [|split; [|split; [|split]]]]].
  - intros file s. repeat split; reflexivity.
  - intros n key value W Wk Wv.
    destruct (kind_eqb (Kind n) MappingNode) eqn:K.
    + assert (Kn : Kind n = MappingNode) by (destruct (Kind n); auto; discriminate).
      destruct (Put_wf n key value Kn W Wk Wv) as (n' & old & P & W' & _). eauto.
    + unfold Put. rewrite K. simpl. eauto.
  - intros n key W. now apply Delete_wf.
  - intros n other W Wo. now apply Merge_wf.
  - intros n jp newValue n' err. apply jsonPatchAdd_wf.
  - intros n jp n' err. apply jsonPatchRemove_wf.
  - intros n where_ op jp newValue n' err. apply processPatchNode_wf.
Qed.

(** When the parent path of an [add] does not resolve, no container is
    created: [jsonPatchAdd] returns the error of the resolution and
    leaves the tree as it was. *)
Lemma jsonPatchAdd_never_creates (n : node) (jp parent : jsonPointer)
    (child : jsonPointerToken) (newValue : node) (e : error) :
  Pop jp = Ok (parent, child) ->
  FindNodeByJSONPointer n (jsonPointer_String parent) = Ok (None, Some e) ->
  jsonPatchAdd n jp newValue = Ok (n, Some e).
Proof.
  intros P F. rewrite jsonPatchAdd_eq, P. simpl. rewrite F. reflexivity.
Qed.

(** C1: on the empty document, the patch [add /a/b] creates nothing:
    it fails with the error of the resolution of [/a], which is not
    recognised as [errNotFound], and the tree is unchanged. *)
Theorem jsonPatchAdd_missing_parent_fails :
  let root := mappingOf [] 0 in
  jsonPatchAdd root (fst (parseJSONPointer (go "/a/b"))) (scalarOf "1")
  = Ok (root, Some (Errorf (go "/a: can not find nodes matches path"))).
Proof.
  intros root. eapply jsonPatchAdd_never_creates; reflexivity.
Qed.

(** An [add] whose index is the length of a Sequence with no spare
    capacity does not append: the slice expression panics. *)
Lemma addAt_full_slice_panics (n : node) (parent : jsonPointer)
    (child : jsonPointerToken) (tn : node) (loc : list nat) (newValue : node) :
  IsIndex child = true -> Kind tn = SequenceNode ->
  Index child = len (Content tn) -> Cap tn = List.length (Content tn) ->
  addAt n parent child (tn, loc) newValue = Panic slice_out_of_range.
Proof.
  intros I K X C. unfold addAt, insertBefore. rewrite I, K, X, C. simpl.
  unfold len. rewrite Nat2Z.id.
  replace (Z.of_nat (List.length (Content tn)) <? 0)%Z with false
    by (symmetry; apply Z.ltb_ge; lia).
  rewrite Z.ltb_irrefl.
  replace (List.length (Content tn) <? List.length (Content tn) + 1) with true
    by (symmetry; apply Nat.ltb_lt; lia).
  reflexivity.
Qed.

(** With spare capacity the same [add] appends. *)
Lemma addAt_spare_slice_appends (n : node) (parent : jsonPointer)
    (child : jsonPointerToken) (tn : node) (loc : list nat) (newValue : node) :
  IsIndex child = true -> Kind tn = SequenceNode ->
  Index child = len (Content tn) -> List.length (Content tn) < Cap tn ->
  addAt n parent child (tn, loc) newValue
  = Ok (store n loc (setContent tn (Content tn ++ [newValue]) (Cap tn)), None).
Proof.
  intros I K X C. unfold addAt, insertBefore, append_cap. rewrite I, K, X. simpl.
  unfold len. rewrite Nat2Z.id.
  replace (Z.of_nat (List.length (Content tn)) <? 0)%Z with false
    by (symmetry; apply Z.ltb_ge; lia).
  rewrite Z.ltb_irrefl.
  replace (Cap tn <? List.length (Content tn) + 1) with false
    by (symmetry; apply Nat.ltb_ge; lia).
  replace (List.length (Content tn) + 1 <=? Cap tn) with true
    by (symmetry; apply Nat.leb_le; lia).
  simpl. now rewrite firstn_all, skipn_all.
Qed.

(** The token [-] appends. *)
Lemma addAt_dash_appends (n : node) (parent : jsonPointer)
    (child : jsonPointerToken) (tn : node) (loc : list nat) (newValue : node) :
  IsIndex child = true -> Kind tn = SequenceNode -> (Index child < 0)%Z ->
  addAt n parent child (tn, loc) newValue
  = Ok (store n loc (setContent tn (Content tn ++ [newValue])
                       (append_cap (Cap tn) (List.length (Content tn) + 1))), None).
Proof.
  intros I K X. unfold addAt. rewrite I, K. simpl.
  now replace (Index child <? 0)%Z with true by (symmetry; apply Z.ltb_lt; lia).
Qed.

(** An index below the length inserts before the element at that
    index. *)
Lemma addAt_inserts_before (n : node) (parent : jsonPointer)
    (child : jsonPointerToken) (tn : node) (loc : list nat) (newValue : node)
    (i : nat) :
  IsIndex child = true -> Kind tn = SequenceNode ->
  Index child = Z.of_nat i -> i < List.length (Content tn) ->
  List.length (Content tn) <= Cap tn ->
  addAt n parent child (tn, loc) newValue
  = Ok (store n loc
          (setContent tn (firstn i (Content tn) ++ [newValue] ++ skipn i (Content tn))
             (append_cap (Cap tn) (List.length (Content tn) + 1))), None).
Proof.
  intros I K X L C. unfold addAt, insertBefore. rewrite I, K, X. simpl.
  unfold len. rewrite Nat2Z.id.
  replace (Z.of_nat i <? 0)%Z with false by (symmetry; apply Z.ltb_ge; lia).
  replace (Z.of_nat (List.length (Content tn)) <? Z.of_nat i)%Z with false
    by (symmetry; apply Z.ltb_ge; lia).
  replace (Cap tn <? i + 1) with false by (symmetry; apply Nat.ltb_ge; lia).
  reflexivity.
Qed.

(** An index above the length is an error that names the index and the
    size, and the tree is unchanged. *)
Lemma addAt_out_of_range (n : node) (parent : jsonPointer)
    (child : jsonPointerToken) (tn : node) (loc : list nat) (newValue : node) :
  IsIndex child = true -> Kind tn = SequenceNode ->
  (len (Content tn) < Index child)%Z ->
  addAt n parent child (tn, loc) newValue
  = Ok (n, Some (Errorf (go "can not perform an add value before index "
                         ++ itoa (Index child) ++ go "(path: "
                         ++ jsonPointer_String parent ++ go ", size: "
                         ++ itoa (len (Content tn)) ++ go ")"))).
Proof.
  intros I K X. unfold addAt. rewrite I, K. simpl.
  replace (Index child <? 0)%Z with false
    by (symmetry; apply Z.ltb_ge; unfold len in X; lia).
  now replace (len (Content tn) <? Index child)%Z with true
    by (symmetry; apply Z.ltb_lt; lia).
Qed.

(** C2: on the document [arr: []], whose Sequence has length 0 and
    capacity 0, the patch [add /arr/0], an index equal to the length,
    does not append: it panics. *)
Theorem jsonPatchAdd_index_at_length_panics :
  let root := mappingOf [scalarOf "arr"; sequenceOf [] 0] 2 in
  jsonPatchAdd root (fst (parseJSONPointer (go "/arr/0"))) (scalarOf "x")
  = Panic slice_out_of_range.
Proof.
  intros root. rewrite jsonPatchAdd_eq. reflexivity.
Qed.

End Patches.

(** C8, witness: a Mapping of the data model and a patch applied to
    it. *)
Lemma invariant_preserved_witness :
  let n := mappingOf [scalarOf "a"; sequenceOf [scalarOf "1"] 1] 2 in
  wf n
  /\ exists n' old, @Put sample n (scalarOf "b") (scalarOf "2") = Ok (n', old) /\ wf n'.
Proof.
  intros n. split; [reflexivity|].
  destruct (@invariant_preserved sample) as (_ & P & _).
  exact (P n (scalarOf "b") (scalarOf "2") eq_refl eq_refl eq_refl).
Defined.

Section Expander.
Context `{Externals}.

(** C3: the reference [${BBB:""}] has a default, the empty string, and
    no resolver defines [BBB]; the expansion does not substitute the
    default, it fails with the variable-not-found error. *)
Theorem expandVar_empty_default_fails :
  expandVar (go "${BBB:" ++ [dquote; dquote] ++ go "}")
    (defaultVarResolver noEnviron (mappingOf [] 0)) false
  = Ok ([], Some (notFound (go "BBB")))
  /\ Error (notFound (go "BBB")) = go "variable not found: BBB not found: yammy error".
Proof. split; reflexivity. Qed.

Lemma shouldQuote_space (s : gostring) :
  existsb is_space s = true -> shouldQuote s = true.
Proof. intros E. unfold shouldQuote. rewrite E. apply orb_true_r. Qed.

(** A default that is not empty is substituted; quoted, it is a string
    and the whole scalar is quoted again for the parser. *)
Lemma expandVar_quoted_default :
  expandVar (go "${AAA:" ++ quote (go "e e e") ++ go "}")
    (defaultVarResolver noEnviron (mappingOf [] 0)) false
  = Ok (quote (go "e e e"), None).
Proof.
  assert (L : lexVars (go "${AAA:" ++ quote (go "e e e") ++ go "}")
              = [mkVar 0 14 (go "AAA") (go "e e e") (go "str")]) by reflexivity.
  unfold expandVar. rewrite L. cbn -[shouldQuote quote].
  rewrite shouldQuote_space by reflexivity. reflexivity.
Qed.

Lemma expandVar_quoted_default_inside :
  expandVar (go "ddd ${AAA:" ++ quote (go "e e e") ++ go "} fff")
    (defaultVarResolver noEnviron (mappingOf [] 0)) false
  = Ok (go "ddd e e e fff", None).
Proof. reflexivity. Qed.

(** Without a default the expansion fails and names the variable. *)
Lemma expandVar_no_default :
  expandVar (go "${KEY}") (defaultVarResolver noEnviron (mappingOf [] 0)) false
  = Ok ([], Some (notFound (go "KEY"))).
Proof. reflexivity. Qed.

Lemma notFound_Is (key : gostring) :
  errors_Is (notFound key) (Defined ErrVarNotFound) = true.
Proof. reflexivity. Qed.

Lemma lexVars_KEY_10 :
  lexVars (go "${KEY:10}") = [mkVar 0 9 (go "KEY") (go "10") (go "int")].
Proof. reflexivity. Qed.

(** C6: the scalar [${KEY:10}] becomes the integer scalar [10] when
    neither the environment nor the directive variables define [KEY],
    and the integer scalar [99] when the environment has [KEY=99]: the
    substituted text is parsed again and the node takes the tag the
    parser gives, which for these texts is [!!int]. *)
Theorem processVars_default_int (environ : gostring -> option gostring)
    (variables n : node) (expected : gostring) :
  Kind n = ScalarNode -> Tag n = go "!!str" -> Value n = go "${KEY:10}" ->
  Get variables (go "KEY") = Ok None ->
  (environ (go "KEY") = None /\ expected = go "10")
  \/ (environ (go "KEY") = Some (go "99") /\ expected = go "99") ->
  yaml_Unmarshal expected = inl (expected, go "!!int") ->
  processVars n (defaultVarResolver environ variables) false
  = Ok (mkNode ScalarNode (go "!!int") expected (Line n) (File n) (Content n) (Cap n),
        None).
Proof.
  intros K T V G E Y.
  assert (P : processVars n (defaultVarResolver environ variables) false
              = processScalar n (defaultVarResolver environ variables) false).
  { destruct n as [k t v l f c cap]. simpl in K. subst k. reflexivity. }
  rewrite P. unfold processScalar. rewrite T, V.
  change (str_eqb (go "!!str") (go "!!str")) with true. cbv iota.
  unfold expandVar. rewrite lexVars_KEY_10.
  assert (R : defaultVarResolver environ variables (go "KEY")
              = match environ (go "KEY") with
                | Some ev => Ok (ev, None)
                | None => Ok ([], Some (notFound (go "KEY")))
                end).
  { unfold defaultVarResolver. cbn [newCompositeVarResolver]. unfold envVarResolver.
    destruct (environ (go "KEY")); [reflexivity|].
    cbn [bind errors_Is_opt errors_Is notFound defined_Is definedError_eqb orb].
    unfold newDirectiveVarResolver.
    destruct (kind_eqb (Kind variables) MappingNode); [rewrite G|]; reflexivity. }
  cbn [List.length Nat.eqb substitute start name slice]. cbn [bind Nat.leb andb skipn firstn Nat.sub].
  rewrite R.
  destruct E as [[E ->]|[E ->]]; rewrite E; cbn in Y |- *; rewrite Y; reflexivity.
Qed.

End Expander.

(** C6, witness: no [KEY] anywhere, with the sample parser. *)
Lemma processVars_default_int_witness :
  @processVars sample (scalarOf "${KEY:10}")
    (defaultVarResolver noEnviron (mappingOf [] 0)) false
  = Ok (mkNode ScalarNode (go "!!int") (go "10") 1 (go "f.yml") [] 0, None).
Proof.
  apply (@processVars_default_int sample noEnviron (mappingOf [] 0)
           (scalarOf "${KEY:10}") (go "10"));
    try reflexivity.
  left. split; reflexivity.
Defined.

(** C7, as stated, fails: with [KEY] resolved to [a}b], the reference
    [${KEY:10}] is kept as [${KEY:a}b}], which substitutes to
    [a}bb}], while direct substitution gives [a}b]. *)
Lemma keepThenSubstitute_differs :
  let resolv := envVarResolver (environKEY (go "a}b")) in
  @expandVar sample (go "${KEY:10}") resolv true = Ok (go "${KEY:a}b}", None)
  /\ @keepThenSubstitute sample (go "${KEY:10}") resolv = Ok (go "a}bb}", None)
  /\ @expandVar sample (go "${KEY:10}") resolv false = Ok (go "a}b", None)
  /\ @keepThenSubstitute sample (go "${KEY:10}") resolv
     <> @expandVar sample (go "${KEY:10}") resolv false.
Proof.
  repeat split; try reflexivity. vm_compute. discriminate.
Qed.
Section Scanner.
Context `{Externals}.

Lemma lexLoop_turn (fuel : nat) (v : gostring) (st : lexer) :
  lx_i st < List.length v ->
  lexLoop (S fuel) v st = lexLoop fuel v (nextTurn (lexStep v st)).
Proof.
  intros L. simpl. apply Nat.ltb_lt in L. rewrite L. reflexivity.
Qed.

Lemma lexLoop_end (fuel : nat) (v : gostring) (st : lexer) :
  List.length v <= lx_i st -> lexLoop fuel v st = st.
Proof.
  intros L. destruct fuel; simpl; auto.
  apply Nat.ltb_ge in L. now rewrite L.
Qed.

Lemma isVarName_pos (c : ascii) (j : nat) :
  j <> 0 -> isVarName c j = isVarName c 1.
Proof.
  intros N. unfold isVarName. destruct j; [contradiction|]. reflexivity.
Qed.

Lemma scanVarName_name (n rest : gostring) (j : nat) :
  j <> 0 ->
  forallb (fun c => isVarName c 1) n = true ->
  match rest with c :: _ => isVarName c 1 = false | [] => True end ->
  scanVarName (n ++ rest) j = j + List.length n.
Proof.
  intros N V R. revert j N. induction n as [|c n IH]; intros j N; cbn [app scanVarName].
  - destruct rest as [|c rest]; cbn [scanVarName List.length]; [lia|].
    rewrite isVarName_pos, R by assumption. lia.
  - cbn [forallb] in V. apply andb_true_iff in V as [V1 V2].
    rewrite isVarName_pos, V1 by assumption. rewrite (IH V2 (j + 1)) by lia.
    cbn [List.length]. lia.
Qed.

Lemma scanDefault_default (d rest : gostring) (j : nat) :
  ContainsByte d "}" = false ->
  scanDefault (d ++ "}"%char :: rest) j = j + List.length d.
Proof.
  revert j. induction d as [|c d IH]; intros j C; cbn [app scanDefault].
  - rewrite Ascii.eqb_refl. cbn [List.length]. lia.
  - unfold ContainsByte in C. cbn [existsb] in C. apply orb_false_iff in C as [C1 C2].
    rewrite Ascii.eqb_sym, C1. rewrite IH by exact C2. cbn [List.length]. lia.
Qed.

(** What [quote] puts between the quotes, byte by byte. *)
Lemma quote_bytes (d : gostring) :
  quote d
  = dquote :: flat_map (fun c => if Ascii.eqb c "\" then ["\"%char; "\"%char]
                                 else if Ascii.eqb c dquote then ["\"%char; dquote]
                                 else [c]) d ++ [dquote].
Proof.
  unfold quote, ReplaceAllByte. cbn [app]. f_equal. f_equal.
  induction d as [|c d IH]; [reflexivity|].
  cbn [flat_map]. rewrite flat_map_app, IH. f_equal.
  destruct (Ascii.eqb c "\") eqn:B.
  - apply Ascii.eqb_eq in B. subst c. reflexivity.
  - destruct (Ascii.eqb c dquote) eqn:Q.
    + apply Ascii.eqb_eq in Q. subst c. reflexivity.
    + cbn [flat_map go list_ascii_of_string app]. rewrite Q. reflexivity.
Qed.

(** [parseVarString] undoes [quote]. *)
Lemma parseVarString_loop_quote (d rest : gostring) (i : nat) (buf : gostring) :
  parseVarString_loop
    (flat_map (fun c => if Ascii.eqb c "\" then ["\"%char; "\"%char]
                        else if Ascii.eqb c dquote then ["\"%char; dquote]
                        else [c]) d ++ dquote :: rest) i dquote buf
  = (buf ++ d,
     Some (i + List.length
                 (flat_map (fun c => if Ascii.eqb c "\" then ["\"%char; "\"%char]
                                     else if Ascii.eqb c dquote then ["\"%char; dquote]
                                     else [c]) d) + 1)).
Proof.
  revert i buf. induction d as [|c d IH]; intros i buf.
  - cbn [flat_map app List.length parseVarString_loop]. rewrite app_nil_r.
    change (Ascii.eqb dquote "\") with false. rewrite Ascii.eqb_refl.
    destruct rest; do 2 f_equal; lia.
  - cbn [flat_map]. destruct (Ascii.eqb c "\") eqn:B.
    + apply Ascii.eqb_eq in B. subst c.
      cbn [app parseVarString_loop]. rewrite Ascii.eqb_refl.
      change (Ascii.eqb "\" dquote) with false. cbv iota.
      rewrite IH. rewrite <- app_assoc. cbn [app List.length]. do 2 f_equal. lia.
    + destruct (Ascii.eqb c dquote) eqn:Q.
      * apply Ascii.eqb_eq in Q. subst c.
        cbn [app parseVarString_loop]. rewrite !Ascii.eqb_refl. cbv iota.
        rewrite IH. rewrite <- app_assoc. cbn [app List.length]. do 2 f_equal. lia.
      * cbn [app parseVarString_loop]. rewrite B, Q.
        destruct (flat_map _ d ++ dquote :: rest) as [|x s'] eqn:S.
        { destruct (flat_map _ d); discriminate. }
        rewrite IH. rewrite <- app_assoc. cbn [app List.length].
        do 2 f_equal. lia.
Qed.

Lemma byte_at_skipn (v : gostring) (i k : nat) :
  byte_at v (i + k) = byte_at (skipn i v) k.
Proof.
  unfold byte_at. revert v. induction i as [|i IH]; intros v; [reflexivity|].
  destruct v as [|c v]; cbn [Nat.add skipn nth]; [now destruct k|apply IH].
Qed.

Lemma byte_at_head (v : gostring) (i : nat) (c : ascii) (s : gostring) :
  skipn i v = c :: s -> byte_at v i = c.
Proof.
  intros E. rewrite <- (Nat.add_0_r i), byte_at_skipn, E. reflexivity.
Qed.

Lemma length_skipn_eq (v : gostring) (i : nat) (c : ascii) (s : gostring) :
  skipn i v = c :: s -> List.length v = i + S (List.length s).
Proof.
  intros E. assert (L := length_skipn i v). rewrite E in L. cbn [List.length] in L. lia.
Qed.

Lemma skipn_skipn_eq (v : gostring) (i : nat) (a b : gostring) :
  skipn i v = a ++ b -> skipn (i + List.length a) v = b.
Proof.
  intros E. rewrite Nat.add_comm, <- skipn_skipn, E. apply skipn_app_exact.
Qed.

Lemma step0_other (v : gostring) (st : lexer) :
  lx_state st = 0 -> Ascii.eqb (byte_at v (lx_i st)) "$" = false ->
  lexStep v st = st.
Proof.
  intros St C. unfold lexStep. rewrite St, C. reflexivity.
Qed.

Lemma step3_close (v : gostring) (st : lexer) :
  lx_state st = 3 -> byte_at v (lx_i st) = "}"%char ->
  lexStep v st
  = mkLexer (lx_i st) 0 (varStarts st) (varName st)
      (vars st ++ [mkVar (varStarts st) (lx_i st + 1) (varName st) [] (go "str")]).
Proof.
  intros St C. unfold lexStep. rewrite St, C. reflexivity.
Qed.

Lemma step3_colon (v : gostring) (st : lexer) :
  lx_state st = 3 -> byte_at v (lx_i st) = ":"%char ->
  lexStep v st = mkLexer (lx_i st) 4 (varStarts st) (varName st) (vars st).
Proof.
  intros St C. unfold lexStep. rewrite St, C. reflexivity.
Qed.

Lemma step4_unquoted (v : gostring) (st : lexer) (d rest : gostring) :
  lx_state st = 4 -> skipn (lx_i st) v = d ++ "}"%char :: rest ->
  valid_default d = true ->
  lexStep v st
  = mkLexer (lx_i st + List.length d - 1) 0 (varStarts st) (varName st)
      (vars st ++ [mkVar (varStarts st) (lx_i st + List.length d + 1) (varName st) d
                     (guessScalarNodeTag d)]).
Proof.
  intros St K V. unfold valid_default in V. apply andb_true_iff in V as [V1 V2].
  apply negb_true_iff in V1.
  assert (C : Ascii.eqb (byte_at v (lx_i st)) dquote = false).
  { destruct d as [|c d].
    - now rewrite (byte_at_head _ _ _ _ K).
    - rewrite (byte_at_head _ _ _ _ K). now apply negb_true_iff in V2. }
  assert (L : List.length v = lx_i st + List.length d + S (List.length rest)).
  { assert (L := length_skipn (lx_i st) v). rewrite K, length_app in L.
    cbn [List.length] in L. lia. }
  unfold lexStep. rewrite St, C. cbv iota. rewrite K.
  rewrite scanDefault_default by assumption.
  replace (lx_i st + List.length d =? List.length v) with false
    by (symmetry; apply Nat.eqb_neq; lia).
  replace (lx_i st + List.length d - lx_i st) with (List.length d) by lia.
  rewrite firstn_app_exact.
  rewrite (byte_at_head v (lx_i st + List.length d) "}" rest)
    by (now apply skipn_skipn_eq).
  reflexivity.
Qed.

Lemma step4_quoted (v : gostring) (st : lexer) (d rest : gostring) :
  lx_state st = 4 -> skipn (lx_i st) v = quote d ++ "}"%char :: rest ->
  lexStep v st
  = mkLexer (lx_i st + List.length (quote d) - 1) 0 (varStarts st) (varName st)
      (vars st ++ [mkVar (varStarts st) (lx_i st + List.length (quote d) + 1)
                     (varName st) d (go "str")]).
Proof.
  intros St K.
  assert (L : List.length v = lx_i st + List.length (quote d) + S (List.length rest)).
  { assert (L := length_skipn (lx_i st) v). rewrite K, length_app in L.
    cbn [List.length] in L. lia. }
  assert (E : byte_at v (lx_i st + List.length (quote d)) = "}"%char)
    by (apply (byte_at_head _ _ _ rest); now apply skipn_skipn_eq).
  rewrite quote_bytes in *. cbn [app List.length] in *.
  rewrite length_app in *. cbn [List.length] in *.
  unfold lexStep. rewrite St, (byte_at_head _ _ _ _ K). rewrite Ascii.eqb_refl.
  unfold parseVarString.
  replace (skipn (lx_i st + 1) v) with (skipn 1 (skipn (lx_i st) v))
    by (rewrite skipn_skipn; f_equal; lia).
  rewrite K. cbn [skipn]. rewrite <- app_assoc. cbn [app].
  rewrite parseVarString_loop_quote. cbn [app].
  set (n := List.length (flat_map _ d)) in *.
  replace (List.length v =? lx_i st + 1 + n + 1) with false
    by (symmetry; apply Nat.eqb_neq; lia).
  replace (lx_i st + 1 + n + 1) with (lx_i st + S (n + 1)) by lia.
  rewrite E. rewrite Ascii.eqb_refl. reflexivity.
Qed.

(** The first three turns on a reference at index [o]: [${], then the
    name. *)
Lemma lex_prefix (v n rest : gostring) (c : ascii) (o fuel : nat)
    (vs0 : nat) (vn0 : gostring) (acc : list vvv) :
  skipn o v = go "${" ++ n ++ c :: rest ->
  valid_name n = true -> isVarName c 1 = false ->
  lexLoop (S (S (S fuel))) v (mkLexer o 0 vs0 vn0 acc)
  = lexLoop fuel v (mkLexer (o + 2 + List.length n) 3 o n acc).
Proof.
  intros K V C. unfold valid_name in V. apply andb_true_iff in V as [V1 V2].
  apply negb_true_iff in V1.
  assert (L : List.length v = o + 2 + List.length n + S (List.length rest)).
  { assert (L := length_skipn o v). rewrite K in L.
    cbn [go list_ascii_of_string app List.length] in L. rewrite length_app in L.
    cbn [List.length] in L. lia. }
  assert (B0 : byte_at v o = "$"%char) by (now apply (byte_at_head _ _ _ _ K)).
  assert (B1 : byte_at v (o + 1) = "{"%char) by (now rewrite byte_at_skipn, K).
  assert (K2 : skipn (o + 2) v = n ++ c :: rest)
    by (apply (skipn_skipn_eq v o (go "${")); exact K).
  rewrite lexLoop_turn by (cbn [lx_i]; lia).
  assert (E1 : nextTurn (lexStep v (mkLexer o 0 vs0 vn0 acc)) = mkLexer (o + 1) 1 o vn0 acc).
  { unfold lexStep, nextTurn. cbn [lx_i lx_state varStarts varName vars].
    rewrite B0, B1.
    replace (o =? List.length v - 1) with false by (symmetry; apply Nat.eqb_neq; lia).
    reflexivity. }
  rewrite E1. rewrite lexLoop_turn by (cbn [lx_i]; lia).
  assert (E2 : nextTurn (lexStep v (mkLexer (o + 1) 1 o vn0 acc))
               = mkLexer (o + 2) 2 o vn0 acc).
  { unfold lexStep, nextTurn. cbn [lx_i lx_state varStarts varName vars]. f_equal. lia. }
  rewrite E2. rewrite lexLoop_turn by (cbn [lx_i]; lia).
  assert (E3 : nextTurn (lexStep v (mkLexer (o + 2) 2 o vn0 acc))
               = mkLexer (o + 2 + List.length n) 3 o n acc).
  { unfold lexStep, nextTurn. cbn [lx_i lx_state varStarts varName vars].
    rewrite K2.
    rewrite scanVarName_name by (auto; lia).
    replace (o + 2 + List.length n - (o + 2)) with (List.length n) by lia.
    rewrite firstn_app_exact, V1.
    cbn [lx_i lx_state varStarts varName vars]. f_equal. lia. }
  rewrite E3. reflexivity.
Qed.

(** The turns of the scanning loop over a reference at index [o]: one
    variable, and the scan goes on after it in state 0. *)
Lemma lex_reference (v : gostring) (o : nat) (r : reference) (rest : gostring)
    (vs0 : nat) (vn0 : gostring) (acc : list vvv) :
  valid_reference r = true ->
  skipn o v = render r ++ rest ->
  exists t, t <= 2 * List.length (render r) /\
    forall fuel,
      lexLoop (t + fuel) v (mkLexer o 0 vs0 vn0 acc)
      = lexLoop fuel v
          (mkLexer (o + List.length (render r)) 0 o (ref_name r)
             (acc ++ [mkVar o (o + List.length (render r)) (ref_name r) (ref_def r)
                        (ref_tag r)])).
Proof.
  unfold valid_reference. intros V K. apply andb_true_iff in V as [Vn Vd].
  destruct r as [n|n d|n d]; cbn [ref_name ref_def ref_tag render] in *.
  - assert (Lr : List.length (go "${" ++ n ++ go "}") = 2 + List.length n + 1).
    { cbn [go list_ascii_of_string app List.length]. rewrite length_app.
      cbn [List.length]. lia. }
    rewrite <- !app_assoc in K.
    assert (K3 : skipn (o + 2 + List.length n) v = "}"%char :: rest).
    { replace (o + 2 + List.length n) with (o + List.length (go "${" ++ n))
        by (rewrite length_app; cbn [go list_ascii_of_string List.length]; lia).
      apply skipn_skipn_eq. now rewrite <- app_assoc. }
    assert (L := length_skipn_eq _ _ _ _ K3).
    exists 4. split; [lia|]. intros fuel. cbn [Nat.add].
    rewrite (lex_prefix v n rest "}" o _ vs0 vn0 acc K Vn eq_refl).
    rewrite lexLoop_turn by (cbn [lx_i]; lia).
    rewrite step3_close by (auto; cbn [lx_i]; now apply (byte_at_head _ _ _ _ K3)).
    unfold nextTurn. cbn [vars lx_i lx_state varStarts varName]. rewrite Lr.
    replace (o + (2 + List.length n + 1)) with (o + 2 + List.length n + 1) by lia.
    reflexivity.
  - assert (Lr : List.length (go "${" ++ n ++ go ":" ++ d ++ go "}")
                 = 2 + List.length n + 1 + List.length d + 1).
    { cbn [go list_ascii_of_string app List.length]. rewrite !length_app.
      cbn [List.length]. rewrite length_app. cbn [List.length]. lia. }
    rewrite <- !app_assoc in K. cbn [go list_ascii_of_string app] in K.
    assert (K3 : skipn (o + 2 + List.length n) v = ":"%char :: d ++ "}"%char :: rest).
    { replace (o + 2 + List.length n) with (o + List.length (go "${" ++ n))
        by (rewrite length_app; cbn [go list_ascii_of_string List.length]; lia).
      apply skipn_skipn_eq. rewrite <- app_assoc. exact K. }
    assert (K4 : skipn (o + 2 + List.length n + 1) v = d ++ "}"%char :: rest)
      by (apply (skipn_skipn_eq v _ [":"%char]); exact K3).
    assert (K5 : skipn (o + 2 + List.length n + 1 + List.length d) v = "}"%char :: rest)
      by (apply skipn_skipn_eq; exact K4).
    assert (L := length_skipn_eq _ _ _ _ K5).
    exists 6. split; [lia|]. intros fuel. cbn [Nat.add].
    rewrite (lex_prefix v n (d ++ "}"%char :: rest) ":" o _ vs0 vn0 acc K Vn eq_refl).
    rewrite lexLoop_turn by (cbn [lx_i]; lia).
    rewrite step3_colon by (auto; cbn [lx_i]; now apply (byte_at_head _ _ _ _ K3)).
    unfold nextTurn. cbn [vars lx_i lx_state varStarts varName].
    rewrite lexLoop_turn by (cbn [lx_i]; lia).
    rewrite (step4_unquoted v _ d rest); auto.
    unfold nextTurn. cbn [vars lx_i lx_state varStarts varName].
    rewrite lexLoop_turn by (cbn [lx_i]; lia).
    rewrite step0_other; auto.
    2:{ cbn [lx_i].
        replace (o + 2 + List.length n + 1 + List.length d - 1 + 1)
          with (o + 2 + List.length n + 1 + List.length d) by lia.
        now rewrite (byte_at_head _ _ _ _ K5). }
    unfold nextTurn. cbn [vars lx_i lx_state varStarts varName]. rewrite Lr.
    replace (o + 2 + List.length n + 1 + List.length d - 1 + 1 + 1)
      with (o + (2 + List.length n + 1 + List.length d + 1)) by lia.
    replace (o + 2 + List.length n + 1 + List.length d + 1)
      with (o + (2 + List.length n + 1 + List.length d + 1)) by lia.
    reflexivity.
  - assert (Q : 2 <= List.length (quote d)).
    { rewrite quote_bytes. cbn [List.length]. rewrite length_app. cbn [List.length]. lia. }
    assert (Lr : List.length (go "${" ++ n ++ go ":" ++ quote d ++ go "}")
                 = 2 + List.length n + 1 + List.length (quote d) + 1).
    { cbn [go list_ascii_of_string app List.length]. rewrite !length_app.
      cbn [List.length]. rewrite length_app. cbn [List.length]. lia. }
    rewrite <- !app_assoc in K. cbn [go list_ascii_of_string app] in K.
    assert (K3 : skipn (o + 2 + List.length n) v
                 = ":"%char :: quote d ++ "}"%char :: rest).
    { replace (o + 2 + List.length n) with (o + List.length (go "${" ++ n))
        by (rewrite length_app; cbn [go list_ascii_of_string List.length]; lia).
      apply skipn_skipn_eq. rewrite <- app_assoc. exact K. }
    assert (K4 : skipn (o + 2 + List.length n + 1) v = quote d ++ "}"%char :: rest)
      by (apply (skipn_skipn_eq v _ [":"%char]); exact K3).
    assert (K5 : skipn (o + 2 + List.length n + 1 + List.length (quote d)) v
                 = "}"%char :: rest)
      by (apply skipn_skipn_eq; exact K4).
    assert (L := length_skipn_eq _ _ _ _ K5).
    exists 6. split; [lia|]. intros fuel. cbn [Nat.add].
    rewrite (lex_prefix v n (quote d ++ "}"%char :: rest) ":" o _ vs0 vn0 acc K Vn eq_refl).
    rewrite lexLoop_turn by (cbn [lx_i]; lia).
    rewrite step3_colon by (auto; cbn [lx_i]; now apply (byte_at_head _ _ _ _ K3)).
    unfold nextTurn. cbn [vars lx_i lx_state varStarts varName].
    rewrite lexLoop_turn by (cbn [lx_i]; lia).
    rewrite (step4_quoted v _ d rest); auto.
    unfold nextTurn. cbn [vars lx_i lx_state varStarts varName].
    rewrite lexLoop_turn by (cbn [lx_i]; lia).
    rewrite step0_other; auto.
    2:{ cbn [lx_i].
        replace (o + 2 + List.length n + 1 + List.length (quote d) - 1 + 1)
          with (o + 2 + List.length n + 1 + List.length (quote d)) by lia.
        now rewrite (byte_at_head _ _ _ _ K5). }
    unfold nextTurn. cbn [vars lx_i lx_state varStarts varName]. rewrite Lr.
    replace (o + 2 + List.length n + 1 + List.length (quote d) - 1 + 1 + 1)
      with (o + (2 + List.length n + 1 + List.length (quote d) + 1)) by lia.
    replace (o + 2 + List.length n + 1 + List.length (quote d) + 1)
      with (o + (2 + List.length n + 1 + List.length (quote d) + 1)) by lia.
    reflexivity.
Qed.

(** The turns of the scanning loop over text without [$]. *)
Lemma lex_text (v : gostring) (s rest : gostring) (vs : nat) (vn : gostring)
    (acc : list vvv) :
  ContainsByte s "$" = false ->
  forall o fuel,
    skipn o v = s ++ rest ->
    lexLoop (List.length s + fuel) v (mkLexer o 0 vs vn acc)
    = lexLoop fuel v (mkLexer (o + List.length s) 0 vs vn acc).
Proof.
  induction s as [|c s IH]; intros C o fuel K.
  - cbn [List.length Nat.add]. now rewrite Nat.add_0_r.
  - unfold ContainsByte in C. cbn [existsb] in C. apply orb_false_iff in C as [C1 C2].
    cbn [app] in K. assert (L := length_skipn_eq _ _ _ _ K).
    cbn [List.length Nat.add]. rewrite lexLoop_turn by (cbn [lx_i]; lia).
    rewrite step0_other; auto.
    2:{ cbn [lx_i]. rewrite (byte_at_head _ _ _ _ K). now rewrite Ascii.eqb_sym. }
    unfold nextTurn. cbn [vars lx_i lx_state varStarts varName].
    rewrite (IH C2 (o + 1) fuel).
    + f_equal. f_equal. lia.
    + apply (skipn_skipn_eq v o [c]). exact K.
Qed.

Lemma valid_pieces_cons (t : gostring) (r : reference)
    (ps : list (gostring * reference)) (tail : gostring) :
  valid_pieces ((t, r) :: ps) tail = true ->
  ContainsByte t "$" = false /\ valid_reference r = true
  /\ valid_pieces ps tail = true.
Proof.
  unfold valid_pieces. cbn [forallb fst snd]. intros V.
  apply andb_true_iff in V as [V Vt]. apply andb_true_iff in V as [V Vp].
  apply andb_true_iff in V as [V1 V2]. apply negb_true_iff in V1.
  rewrite Vp, Vt. auto.
Qed.

(** The scanner on text and references: the variables of the
    references, in order. *)
Lemma lex_pieces (ps : list (gostring * reference)) (tail : gostring) :
  forall v o vs vn acc fuel,
    valid_pieces ps tail = true ->
    skipn o v = render_pieces ps tail ->
    2 * List.length (render_pieces ps tail) + 1 <= fuel ->
    vars (lexLoop fuel v (mkLexer o 0 vs vn acc)) = acc ++ vars_of ps o.
Proof.
  induction ps as [|[t r] ps IH]; intros v o vs vn acc fuel V K F.
  - cbn [render_pieces vars_of] in *. rewrite app_nil_r.
    unfold valid_pieces in V. cbn [forallb andb] in V. apply negb_true_iff in V.
    replace fuel with (List.length tail + (fuel - List.length tail)) by lia.
    rewrite (lex_text v tail [] vs vn acc V o) by (now rewrite app_nil_r).
    rewrite lexLoop_end; [reflexivity|].
    cbn [lx_i]. assert (L := length_skipn o v). rewrite K in L. lia.
  - destruct (valid_pieces_cons _ _ _ _ V) as (Vt & Vr & Vp).
    cbn [render_pieces vars_of] in *.
    rewrite !length_app in F.
    assert (Kr : skipn (o + List.length t) v = render r ++ render_pieces ps tail)
      by (apply skipn_skipn_eq; exact K).
    destruct (lex_reference v (o + List.length t) r (render_pieces ps tail) vs vn acc Vr Kr)
      as (tr & Ltr & Er).
    replace fuel with (List.length t + (tr + (fuel - List.length t - tr))) by lia.
    rewrite (lex_text v t _ vs vn acc Vt o _ K).
    rewrite Er. rewrite IH; auto.
    + now rewrite <- app_assoc.
    + apply skipn_skipn_eq. exact Kr.
    + lia.
Qed.

Lemma lexVars_pieces (ps : list (gostring * reference)) (tail : gostring) :
  valid_pieces ps tail = true ->
  lexVars (render_pieces ps tail) = vars_of ps 0.
Proof.
  intros V. unfold lexVars.
  apply (lex_pieces ps tail (render_pieces ps tail) 0 0 [] []); auto.
Qed.

(** The scanner reads a scalar that is exactly one reference as one
    variable that spans it. *)
Lemma lexVars_render (r : reference) :
  valid_reference r = true -> lexVars (render r) = [ref_var r].
Proof.
  intros V.
  assert (E : render r = render_pieces [([], r)] []) by (cbn; now rewrite app_nil_r).
  rewrite E at 1. rewrite lexVars_pieces.
  - reflexivity.
  - unfold valid_pieces. cbn. now rewrite V.
Qed.

Lemma slice_text (v : gostring) (o : nat) (t rest : gostring) :
  skipn o v = t ++ rest -> o <= List.length v ->
  slice v o (o + List.length t) = Ok t.
Proof.
  intros K L. unfold slice.
  assert (Lv := length_skipn o v). rewrite K, length_app in Lv.
  replace (o <=? o + List.length t) with true by (symmetry; apply Nat.leb_le; lia).
  replace (o + List.length t <=? List.length v) with true
    by (symmetry; apply Nat.leb_le; lia).
  cbn [andb]. rewrite K.
  replace (o + List.length t - o) with (List.length t) by lia.
  now rewrite firstn_app_exact.
Qed.

Lemma slice_tail (v : gostring) (o : nat) (tail : gostring) :
  skipn o v = tail -> o <= List.length v ->
  slice v o (List.length v) = Ok tail.
Proof.
  intros K L. unfold slice.
  replace (o <=? List.length v) with true by (symmetry; apply Nat.leb_le; lia).
  rewrite Nat.leb_refl. cbn [andb]. rewrite K.
  rewrite firstn_all2; [reflexivity|].
  assert (Lv := length_skipn o v). rewrite K in Lv. lia.
Qed.

(** The re-assembly loop of [expandVar] on the variables of text and
    references. *)
Lemma substitute_pieces (resolv : VarResolver) (keeps single : bool) (v : gostring)
    (nv : nat) (tail : gostring) (ps : list (gostring * reference)) :
  forall o ret,
    skipn o v = render_pieces ps tail -> o <= List.length v ->
    (forall vv, In vv (vars_of ps o) ->
                (nv =? 1) && (end_ vv =? List.length v) && (start vv =? 0) = single) ->
    substitute v resolv keeps nv (vars_of ps o) o ret
    = expand_pieces resolv keeps single ps tail ret.
Proof.
  induction ps as [|[t r] ps IH]; intros o ret K L S.
  - cbn [vars_of substitute expand_pieces render_pieces] in *.
    rewrite (slice_tail v o tail K L). reflexivity.
  - cbn [vars_of substitute expand_pieces render_pieces start name] in *.
    rewrite (slice_text v o t _ K L). cbn [bind].
    destruct (resolv (ref_name r)) as [answer|msg]; cbn [bind]; [|reflexivity].
    change (resolvedOf _ keeps answer) with (resolvedOf (ref_var r) keeps answer).
    destruct (resolvedOf (ref_var r) keeps answer) as [resolved|err]; [|reflexivity].
    cbn [end_].
    assert (Lv := length_skipn o v). rewrite K, !length_app in Lv.
    rewrite IH.
    + f_equal. f_equal. f_equal.
      assert (Sg := S _ (or_introl eq_refl)). cbn [start end_] in Sg.
      unfold replacement, replace_ref. cbn [start end_ name tag]. rewrite Sg.
      destruct keeps; cbn [negb].
      * unfold kept. destruct (List.length resolved =? 0); [reflexivity|].
        destruct (str_eqb (ref_tag r) (go "str") && shouldQuote resolved); reflexivity.
      * destruct single; cbn [andb]; rewrite ?andb_true_r, ?andb_false_r; reflexivity.
    + replace (o + List.length t + List.length (render r))
        with (o + List.length t + List.length (render r)) by lia.
      apply skipn_skipn_eq. apply skipn_skipn_eq. exact K.
    + lia.
    + intros vv I. apply S. now right.
Qed.

Lemma vars_of_length (ps : list (gostring * reference)) (o : nat) :
  List.length (vars_of ps o) = List.length ps.
Proof.
  revert o. induction ps as [|[t r] ps IH]; intros o; cbn [vars_of List.length]; auto.
Qed.

(** [expandVar] on text and references. *)
Lemma expandVar_pieces (resolv : VarResolver) (keeps : bool)
    (ps : list (gostring * reference)) (tail : gostring) :
  valid_pieces ps tail = true ->
  expandVar (render_pieces ps tail) resolv keeps
  = expand_pieces resolv keeps (single_of ps tail) ps tail [].
Proof.
  intros V. unfold expandVar. rewrite lexVars_pieces by assumption.
  rewrite vars_of_length.
  destruct ps as [|[t r] ps]; [reflexivity|].
  cbn [List.length Nat.eqb].
  apply substitute_pieces; auto; [lia|].
  intros vv I. destruct ps as [|p ps].
  - cbn [vars_of In] in I. destruct I as [<-|[]].
    cbn [start end_ single_of List.length Nat.eqb andb render_pieces].
    rewrite !length_app. rewrite andb_comm. f_equal.
    destruct (List.length tail) as [|k].
    + rewrite !Nat.add_0_r. now rewrite Nat.eqb_refl.
    + cbn [Nat.eqb]. apply Nat.eqb_neq. lia.
  - reflexivity.
Qed.

(** [expandVar] on a scalar that is exactly one reference: one call of
    the resolver, and the replacement is the whole result. *)
Lemma expandVar_render (r : reference) (resolv : VarResolver) (keeps : bool) :
  valid_reference r = true ->
  expandVar (render r) resolv keeps
  = (answer <- resolv (ref_name r) ;;
     match resolvedOf (ref_var r) keeps answer with
     | inr err => Ok ([], Some err)
     | inl resolved => Ok (replace_ref true keeps r resolved, None)
     end).
Proof.
  intros V.
  assert (E : render r = render_pieces [([], r)] []) by (cbn; now rewrite app_nil_r).
  rewrite E, expandVar_pieces by (unfold valid_pieces; cbn; now rewrite V).
  cbn [expand_pieces single_of List.length Nat.eqb andb app].
  destruct (resolv (ref_name r)) as [answer|msg]; cbn [bind]; [|reflexivity].
  destruct (resolvedOf (ref_var r) keeps answer); [|reflexivity].
  now rewrite app_nil_r.
Qed.

Lemma not_shouldQuote (s : gostring) :
  shouldQuote s = false ->
  ContainsByte s "}" = false /\ ContainsByte s dquote = false
  /\ str_eqb (guessScalarNodeTag s) (go "str") = true.
Proof.
  unfold shouldQuote. intros Q.
  apply orb_false_iff in Q as [Q _]. apply orb_false_iff in Q as [Q Q3].
  apply orb_false_iff in Q as [Q1 Q2]. apply negb_false_iff in Q3. auto.
Qed.

Lemma plain_shouldQuote (s : gostring) :
  plain s = true ->
  ContainsByte s "}" = false /\ ContainsByte s dquote = false
  /\ shouldQuote s = negb (str_eqb (guessScalarNodeTag s) (go "str")).
Proof.
  unfold plain, shouldQuote. intros P.
  apply andb_true_iff in P as [P P3]. apply andb_true_iff in P as [P1 P2].
  apply negb_true_iff in P1, P2, P3. rewrite P1, P2, P3.
  repeat split; auto. now rewrite orb_false_r.
Qed.

Lemma valid_default_of (s : gostring) :
  ContainsByte s "}" = false -> ContainsByte s dquote = false ->
  valid_default s = true.
Proof.
  intros A B. unfold valid_default. rewrite A. cbn [negb andb].
  destruct s as [|c s]; [reflexivity|].
  unfold ContainsByte in B. cbn [existsb] in B. apply orb_false_iff in B as [B _].
  rewrite Ascii.eqb_sym, B. reflexivity.
Qed.

(** The kept reference is valid, has the name of [r] and [resolved] as
    its default, and substitution treats it as it treats [r]. *)
Lemma kept_facts (r : reference) (resolved : gostring) (single : bool) :
  valid_reference r = true ->
  (str_eqb (ref_tag r) (go "str") = false ->
   (List.length resolved =? 0) = false -> reads_back resolved) ->
  valid_reference (kept r resolved) = true
  /\ ref_name (kept r resolved) = ref_name r
  /\ ref_def (kept r resolved) = resolved
  /\ replace_ref single false (kept r resolved) resolved
     = replace_ref single false r resolved.
Proof.
  intros V P. unfold valid_reference in V. apply andb_true_iff in V as [Vn Vd].
  unfold replace_ref, kept.
  destruct (List.length resolved =? 0) eqn:N.
  - cbn [ref_name ref_def ref_tag]. repeat split; auto.
    + unfold valid_reference. cbn [ref_name]. now rewrite Vn.
    + destruct resolved; [reflexivity|discriminate].
  - destruct (str_eqb (ref_tag r) (go "str")) eqn:T; cbn [andb].
    + destruct (shouldQuote resolved) eqn:Q.
      * cbn [ref_name ref_def ref_tag]. repeat split; auto.
        unfold valid_reference. cbn [ref_name]. now rewrite Vn.
      * cbn [ref_name ref_def ref_tag]. rewrite andb_false_r.
        destruct (not_shouldQuote _ Q) as (A & B & C).
        repeat split; auto.
        unfold valid_reference. cbn [ref_name]. rewrite Vn.
        now rewrite valid_default_of by assumption.
    + destruct (P eq_refl eq_refl) as [Vr E].
      cbn [ref_name ref_def ref_tag]. rewrite E. repeat split; auto.
      unfold valid_reference. cbn [ref_name]. now rewrite Vn, Vr.
Qed.

(** What keep-expression mode embeds reads back, when the resolver
    answers with a value or with not-found. *)
Lemma resolved_keep_reads_back (resolv : VarResolver) (r : reference) :
  valid_reference r = true -> embeddable resolv r ->
  str_eqb (ref_tag r) (go "str") = false ->
  (List.length (resolved_keep resolv r) =? 0) = false ->
  reads_back (resolved_keep resolv r).
Proof.
  intros V Em T N. unfold resolved_keep in *.
  assert (D : reads_back (ref_def r)).
  { destruct r as [n|n d|n d]; cbn [ref_tag ref_def] in *;
      try (rewrite str_eqb_refl in T; discriminate).
    unfold valid_reference in V. apply andb_true_iff in V as [_ Vd].
    split; [exact Vd|]. now rewrite T. }
  destruct (resolv (ref_name r)) as [[val [e|]]|msg] eqn:R; auto.
  destruct (plain_shouldQuote val (Em val T R)) as (A & B & C).
  split; [now apply valid_default_of|]. rewrite C. apply andb_negb_r.
Qed.

Lemma kept_pieces_valid (resolv : VarResolver) (tail : gostring)
    (ps : list (gostring * reference)) :
  valid_pieces ps tail = true ->
  (forall t r, In (t, r) ps -> embeddable resolv r) ->
  valid_pieces (kept_pieces resolv ps) tail = true.
Proof.
  induction ps as [|[t r] ps IH]; intros V Em; [exact V|].
  destruct (valid_pieces_cons _ _ _ _ V) as (Vt & Vr & Vp).
  specialize (IH Vp (fun t' r' I => Em t' r' (or_intror I))).
  unfold valid_pieces in *. cbn [kept_pieces map forallb fst snd] in *.
  apply andb_true_iff in IH as [IH1 IH2]. fold (kept_pieces resolv ps) in IH1.
  rewrite Vt, IH2. cbn [negb andb].
  change (map _ ps) with (kept_pieces resolv ps). rewrite IH1.
  destruct (kept_facts r (resolved_keep resolv r) false Vr) as (Vk & _).
  - intros T N. apply resolved_keep_reads_back; auto. apply (Em t r). now left.
  - now rewrite Vk.
Qed.

Lemma kept_pieces_single (resolv : VarResolver) (tail : gostring)
    (ps : list (gostring * reference)) :
  single_of (kept_pieces resolv ps) tail = single_of ps tail.
Proof.
  destruct ps as [|[t r] [|p ps]]; reflexivity.
Qed.

(** Keep-expression mode on text and references, when every reference
    is answered. *)
Lemma keep_pieces (resolv : VarResolver) (single : bool) (tail : gostring)
    (ps : list (gostring * reference)) :
  forall ret,
    (forall t r, In (t, r) ps -> answered resolv r) ->
    expand_pieces resolv true single ps tail ret
    = Ok (ret ++ render_pieces (kept_pieces resolv ps) tail, None).
Proof.
  induction ps as [|[t r] ps IH]; intros ret An; [reflexivity|].
  cbn [expand_pieces kept_pieces map fst snd render_pieces].
  destruct (An t r (or_introl eq_refl)) as (val & err & R & NF).
  unfold resolved_keep. rewrite R. cbn [bind].
  assert (E : resolvedOf (ref_var r) true (val, err)
              = inl (match err with None => val | Some _ => ref_def r end)).
  { unfold resolvedOf. destruct err as [e|]; [|reflexivity].
    rewrite (NF e eq_refl). now rewrite andb_false_r. }
  rewrite E. rewrite IH by (intros t' r' I; apply (An t' r'); now right).
  unfold replace_ref. rewrite <- !app_assoc.
  destruct err; reflexivity.
Qed.

(** The second pass, over the kept references, gives what the direct
    pass gives over the references themselves. *)
Lemma second_pieces (resolv : VarResolver) (single : bool) (tail : gostring)
    (ps : list (gostring * reference)) :
  forall ret,
    valid_pieces ps tail = true ->
    (forall t r, In (t, r) ps -> embeddable resolv r) ->
    (forall t r, In (t, r) ps -> answered resolv r) ->
    expand_pieces resolv false single (kept_pieces resolv ps) tail ret
    = expand_pieces resolv false single ps tail ret.
Proof.
  induction ps as [|[t r] ps IH]; intros ret V Em An; [reflexivity|].
  destruct (valid_pieces_cons _ _ _ _ V) as (Vt & Vr & Vp).
  cbn [expand_pieces kept_pieces map fst snd].
  change (map _ ps) with (kept_pieces resolv ps).
  destruct (kept_facts r (resolved_keep resolv r) single Vr) as (Vk & Nm & Df & Rp).
  { intros T N. apply resolved_keep_reads_back; auto. apply (Em t r). now left. }
  rewrite Nm.
  destruct (An t r (or_introl eq_refl)) as (val & err & R & NF).
  unfold resolved_keep in *. rewrite R in *. cbn [bind].
  unfold resolvedOf. change (def (ref_var ?x)) with (ref_def x). rewrite Df.
  destruct err as [e|].
  - rewrite (NF e eq_refl). cbn [negb]. rewrite !andb_true_r.
    destruct (List.length (ref_def r) =? 0); [reflexivity|].
    rewrite Rp. apply IH; auto.
    + intros t' r' I. apply (Em t' r'). now right.
    + intros t' r' I. apply (An t' r'). now right.
  - rewrite Rp. apply IH; auto.
    + intros t' r' I. apply (Em t' r'). now right.
    + intros t' r' I. apply (An t' r'). now right.
Qed.

(** C7 (amended): for a scalar made of text without [$] and of
    references, keeping the expressions and then substituting the kept
    text with the same resolver gives what direct substitution gives,
    provided that every reference after the first is answered by the
    resolver with a value or with not-found and that, when the default
    of a reference is unquoted and looks like an integer, a float, a
    boolean or null, a value the resolver finds for it has no [}], no
    double quote and no white space. *)
Theorem keepThenSubstitute_pieces (ps : list (gostring * reference))
    (tail : gostring) (resolv : VarResolver) :
  valid_pieces ps tail = true ->
  (forall t r, In (t, r) ps -> embeddable resolv r) ->
  (forall t r, In (t, r) (List.tl ps) -> answered resolv r) ->
  keepThenSubstitute (render_pieces ps tail) resolv
  = expandVar (render_pieces ps tail) resolv false.
Proof.
  intros V Em An. unfold keepThenSubstitute.
  rewrite !expandVar_pieces by assumption.
  destruct ps as [|[t r] ps].
  - cbn [expand_pieces bind app]. change tail with (render_pieces [] tail) at 1.
    now rewrite expandVar_pieces.
  - cbn [List.tl] in An.
    assert (Clean : answered resolv r ->
              (' pat <- expand_pieces resolv true (single_of ((t, r) :: ps) tail)
                          ((t, r) :: ps) tail [] ;;
               match pat with
               | (_, Some e) => Ok ([], Some e)
               | (kept0, None) => expandVar kept0 resolv false
               end)
              = expand_pieces resolv false (single_of ((t, r) :: ps) tail)
                  ((t, r) :: ps) tail []).
    { intros A.
      assert (An' : forall t' r', In (t', r') ((t, r) :: ps) -> answered resolv r').
      { intros t' r' [[= <- <-]|I]; auto. apply (An t' r' I). }
      rewrite keep_pieces by assumption. cbn [bind app].
      rewrite expandVar_pieces by (now apply kept_pieces_valid).
      rewrite kept_pieces_single. now apply second_pieces. }
    destruct (resolv (ref_name r)) as [[val err]|msg] eqn:R.
    + destruct err as [e|].
      * destruct (errors_Is e (Defined ErrVarNotFound)) eqn:Is.
        -- apply Clean. exists val, (Some e). split; auto. now intros e' [= <-].
        -- cbn [expand_pieces]. rewrite R. cbn [bind]. unfold resolvedOf. rewrite Is.
           reflexivity.
      * apply Clean. exists val, None. split; auto. discriminate.
    + cbn [expand_pieces]. rewrite R. reflexivity.
Qed.

(** C10: a name that is set in the environment, even to the empty
    string, is answered by the default resolver chain with that value,
    found: the directive variables are not consulted, and a reference
    to it is replaced by the value of the environment and not by its
    own default. *)
Theorem env_value_wins (environ : gostring -> option gostring)
    (variables : node) (key ev : gostring) :
  environ key = Some ev ->
  defaultVarResolver environ variables key = Ok (ev, None)
  /\ forall r, valid_reference r = true -> ref_name r = key ->
       expandVar (render r) (defaultVarResolver environ variables) false
       = Ok (if List.length ev =? 0 then [dquote; dquote]
             else if str_eqb (ref_tag r) (go "str") && shouldQuote ev then quote ev
             else ev, None).
Proof.
  intros E. split; [now apply defaultVarResolver_env|].
  intros r V N. rewrite expandVar_render by assumption.
  rewrite N, (defaultVarResolver_env _ _ _ _ E). reflexivity.
Qed.

End Scanner.

(** C10, witness: [KEY] set to the empty string in the environment and
    to [10] in the directive variables; [${KEY:10}] becomes the empty
    string literal. *)
Lemma env_value_wins_witness :
  let variables := mappingOf [scalarOf "KEY"; scalarOf "10"] 2 in
  defaultVarResolver (environKEY []) variables (go "KEY") = Ok ([], None)
  /\ @expandVar sample (go "${KEY:10}") (defaultVarResolver (environKEY []) variables)
       false
     = Ok ([dquote; dquote], None).
Proof.
  intros variables.
  destruct (@env_value_wins sample (environKEY []) variables (go "KEY") [] eq_refl)
    as [A B].
  split; [exact A|].
  exact (B (Unquoted (go "KEY") (go "10")) eq_refl eq_refl).
Defined.

(** C7, witness: [${KEY:10} bbb ${KEY2}] with [KEY=99] and [KEY2=ccc]
    in the environment. *)
Lemma keepThenSubstitute_pieces_witness :
  let environ := fun key => if str_eqb key (go "KEY") then Some (go "99")
                            else if str_eqb key (go "KEY2") then Some (go "ccc")
                            else None in
  @keepThenSubstitute sample (go "${KEY:10} bbb ${KEY2}") (envVarResolver environ)
  = @expandVar sample (go "${KEY:10} bbb ${KEY2}") (envVarResolver environ) false.
Proof.
  intros environ.
  apply (@keepThenSubstitute_pieces sample
           [([], Unquoted (go "KEY") (go "10")); (go " bbb ", Bare (go "KEY2"))] []).
  - reflexivity.
  - intros t r [[= <- <-]|[[= <- <-]|[]]] val T; try discriminate T.
    intros [= <-]. reflexivity.
  - intros t r [[= <- <-]|[]]. exists (go "ccc"), None. split; [reflexivity|discriminate].
Defined.
Section Fuel.
Context `{Externals}.

Lemma scanVarName_bounds (s : gostring) (j : nat) :
  j <= scanVarName s j <= j + List.length s.
Proof.
  revert j. induction s as [|c s IH]; intros j; cbn [scanVarName List.length]; [lia|].
  destruct (isVarName c j); [|lia]. specialize (IH (j + 1)). lia.
Qed.

Lemma scanDefault_bounds (s : gostring) (j : nat) :
  j <= scanDefault s j <= j + List.length s.
Proof.
  revert j. induction s as [|c s IH]; intros j; cbn [scanDefault List.length]; [lia|].
  destruct (Ascii.eqb c "}"); [lia|]. specialize (IH (j + 1)). lia.
Qed.

Lemma parseVarString_loop_two (c d : ascii) (s : gostring) (i : nat) (q : ascii)
    (buf : gostring) :
  parseVarString_loop (c :: d :: s) i q buf
  = if Ascii.eqb c "\" then
      if Ascii.eqb d q then parseVarString_loop s (i + 2) q (buf ++ [q])
      else if Ascii.eqb d "\" then parseVarString_loop s (i + 2) q (buf ++ ["\"%char])
      else parseVarString_loop (d :: s) (i + 1) q (buf ++ [c])
    else if Ascii.eqb c q then (buf, Some (i + 1))
    else parseVarString_loop (d :: s) (i + 1) q (buf ++ [c]).
Proof. reflexivity. Qed.

Lemma parseVarString_loop_after (s : gostring) (i : nat) (q : ascii) (buf : gostring)
    (e : nat) :
  snd (parseVarString_loop s i q buf) = Some e -> i < e.
Proof.
  revert i buf.
  induction s as [s IH] using
    (well_founded_induction (Wf_nat.well_founded_ltof _ (@List.length ascii))).
  intros i buf. destruct s as [|c [|d s'']].
  - discriminate.
  - cbn [parseVarString_loop].
    destruct (Ascii.eqb c q); cbn [snd]; [intros [= <-]; lia | discriminate].
  - rewrite parseVarString_loop_two.
    assert (L1 : Wf_nat.ltof _ (@List.length ascii) (d :: s'') (c :: d :: s''))
      by (unfold Wf_nat.ltof; cbn [List.length]; lia).
    assert (L2 : Wf_nat.ltof _ (@List.length ascii) s'' (c :: d :: s''))
      by (unfold Wf_nat.ltof; cbn [List.length]; lia).
    destruct (Ascii.eqb c "\").
    + destruct (Ascii.eqb d q); [intros E; apply (IH _ L2) in E; lia|].
      destruct (Ascii.eqb d "\"); intros E; [apply (IH _ L2) in E | apply (IH _ L1) in E]; lia.
    + destruct (Ascii.eqb c q); cbn [snd]; [intros [= <-]; lia|].
      intros E. apply (IH _ L1) in E. lia.
Qed.

(** The measure that every turn of the scanning loop decreases. *)
Lemma lexStep_progress (v : gostring) (st : lexer) :
  lx_i st < List.length v ->
  2 * (List.length v - lx_i (nextTurn (lexStep v st)))
  + (if lx_state (lexStep v st) =? 0 then 0 else 1)
  < 2 * (List.length v - lx_i st) + (if lx_state st =? 0 then 0 else 1).
Proof.
  intros L. unfold nextTurn, lexStep. cbn [lx_i].
  destruct (lx_state st) as [|[|[|[|[|s]]]]] eqn:St; cbn [Nat.eqb].
  - destruct (Ascii.eqb (byte_at v (lx_i st)) "$" && negb (lx_i st =? List.length v - 1)).
    + destruct (Ascii.eqb (byte_at v (lx_i st + 1)) "$");
        destruct (Ascii.eqb (byte_at v (lx_i st + 1)) "{"); cbn [lx_i lx_state Nat.eqb]; lia.
    + rewrite St. cbn [Nat.eqb]. lia.
  - cbn [lx_i lx_state Nat.eqb]. lia.
  - assert (B := scanVarName_bounds (skipn (lx_i st) v) (lx_i st)).
    rewrite length_skipn in B.
    set (j := scanVarName (skipn (lx_i st) v) (lx_i st)) in *.
    assert (N : List.length (firstn (j - lx_i st) (skipn (lx_i st) v)) = j - lx_i st).
    { rewrite length_firstn, length_skipn. lia. }
    rewrite N. destruct (j - lx_i st =? 0) eqn:Z; cbn [lx_i lx_state Nat.eqb].
    + apply Nat.eqb_eq in Z. lia.
    + apply Nat.eqb_neq in Z. lia.
  - destruct (Ascii.eqb (byte_at v (lx_i st)) ":"); cbn [lx_i lx_state Nat.eqb]; [lia|].
    destruct (Ascii.eqb (byte_at v (lx_i st)) "}"); cbn [lx_i lx_state Nat.eqb]; [lia|].
    rewrite St. cbn [Nat.eqb]. lia.
  - destruct (Ascii.eqb (byte_at v (lx_i st)) dquote).
    + destruct (parseVarString v (lx_i st) (byte_at v (lx_i st))) as [value [e|]] eqn:P;
        cbn [lx_i lx_state Nat.eqb]; [|lia].
      assert (A : lx_i st + 1 < e).
      { unfold parseVarString in P. eapply parseVarString_loop_after. rewrite P. reflexivity. }
      destruct (List.length v =? e); cbn [lx_i lx_state Nat.eqb]; lia.
    + assert (B := scanDefault_bounds (skipn (lx_i st) v) (lx_i st)).
      rewrite length_skipn in B.
      set (j := scanDefault (skipn (lx_i st) v) (lx_i st)) in *.
      destruct (j =? List.length v); cbn [lx_i lx_state Nat.eqb]; lia.
  - rewrite St. cbn [Nat.eqb]. lia.
Qed.

Lemma lexLoop_reaches_end (fuel : nat) (v : gostring) (st : lexer) :
  2 * (List.length v - lx_i st) + (if lx_state st =? 0 then 0 else 1) < fuel ->
  List.length v <= lx_i (lexLoop fuel v st).
Proof.
  revert st. induction fuel as [|fuel IH]; intros st M; [lia|].
  cbn [lexLoop]. destruct (lx_i st <? List.length v) eqn:L.
  - apply Nat.ltb_lt in L. apply IH.
    assert (P := lexStep_progress v st L). unfold nextTurn in *.
    cbn [lx_i lx_state] in *. lia.
  - apply Nat.ltb_ge in L. exact L.
Qed.

(** The fuel given to the scanning loop in [lexVars] is enough: the
    loop stops because it has reached the end of the text. *)
Lemma lexVars_scans_all (v : gostring) :
  List.length v <= lx_i (lexLoop (2 * List.length v + 1) v (mkLexer 0 0 0 [] [])).
Proof.
  apply lexLoop_reaches_end. cbn [lx_i lx_state Nat.eqb]. lia.
Qed.

End Fuel.
